(** * Rowset lifecycle and compaction scheduling of the StarRocks backend

    A shallow embedding of

    - [be/src/storage/rowset/rowset.h]: [RowsetStateMachine] and the
      reader-count protocol of [Rowset] ([acquire], [release], [close]);
    - [be/src/storage/compaction_scheduler.cpp]: the admission checks and
      the selection loop of [CompactionScheduler].

    Each C++ method becomes a function that takes the object's state and
    returns the new state next to the method's result.  What a method does
    to the outside (taking [_lock], calling the virtual [do_close], writing
    a log line) is recorded as a list of events. *)

From Stdlib Require Import ZArith List Bool Lia String Permutation.
Import ListNotations.
Open Scope Z_scope.

(* ================================================================== *)
(** ** Rowset state machine and reader counting ([rowset.h])           *)
(* ================================================================== *)

Module RowsetLifecycle.

(** [enum RowsetState]. *)
Inductive RowsetState : Type :=
| ROWSET_UNLOADED
| ROWSET_LOADED
| ROWSET_UNLOADING.

Definition RowsetState_eqb (a b : RowsetState) : bool :=
  match a, b with
  | ROWSET_UNLOADED, ROWSET_UNLOADED => true
  | ROWSET_LOADED, ROWSET_LOADED => true
  | ROWSET_UNLOADING, ROWSET_UNLOADING => true
  | _, _ => false
  end.

(** The enumerator's integer value, as [strings::Substitute] prints it. *)
Definition state_code (s : RowsetState) : string :=
  match s with
  | ROWSET_UNLOADED => "0"
  | ROWSET_LOADED => "1"
  | ROWSET_UNLOADING => "2"
  end.

(** The two shapes of [Status] these methods produce. *)
Inductive Status : Type :=
| OK
| InternalError (msg : string).

Definition ok (st : Status) : bool :=
  match st with
  | OK => true
  | InternalError _ => false
  end.

(** [class RowsetStateMachine]; a fresh machine is [ROWSET_UNLOADED]. *)
Record RowsetStateMachine : Type := mkMachine { rowset_state : RowsetState }.

Definition new_machine : RowsetStateMachine := mkMachine ROWSET_UNLOADED.

Definition on_load (m : RowsetStateMachine) : Status * RowsetStateMachine :=
  match rowset_state m with
  | ROWSET_UNLOADED => (OK, mkMachine ROWSET_LOADED)
  | s => (InternalError (String.append "rowset state on_load error, " (state_code s)), m)
  end.

Definition on_close (m : RowsetStateMachine) (refs_by_reader : Z)
  : Status * RowsetStateMachine :=
  match rowset_state m with
  | ROWSET_LOADED =>
      if refs_by_reader =? 0
      then (OK, mkMachine ROWSET_UNLOADED)
      else (OK, mkMachine ROWSET_UNLOADING)
  | s => (InternalError (String.append "rowset state on_close error, " (state_code s)), m)
  end.

Definition on_release (m : RowsetStateMachine) : Status * RowsetStateMachine :=
  match rowset_state m with
  | ROWSET_UNLOADING => (OK, mkMachine ROWSET_UNLOADED)
  | s => (InternalError (String.append "rowset state on_release error, " (state_code s)), m)
  end.

(** [uint64_t] arithmetic: [std::atomic<uint64_t> _refs_by_reader] wraps
    around on [++] and [--]. *)
Definition UINT64_MOD : Z := 2 ^ 64.

Definition wrap64 (z : Z) : Z := z mod UINT64_MOD.

(** What a method does besides changing the fields of the rowset. *)
Inductive Event : Type :=
| EvLock                      (* std::lock_guard on _lock is constructed *)
| EvUnlock                    (* ... and destroyed                        *)
| EvDoLoad                    (* the virtual do_load() is called          *)
| EvDoClose                   (* the virtual do_close() is called         *)
| EvLogWarning (st : Status)  (* LOG(WARNING) << ... << st.to_string()     *)
| EvVLog.                     (* VLOG(3)                                  *)

(** The mutable part of [class Rowset].  [do_load] and [do_close] are
    pure virtual in the header ("release resources in this api"); what
    they do is kept as the flag [resources_open]. *)
Record Rowset : Type := mkRowset {
  refs_by_reader : Z;
  rowset_state_machine : RowsetStateMachine;
  resources_open : bool
}.

Definition state (r : Rowset) : RowsetState :=
  rowset_state (rowset_state_machine r).

Definition set_refs (r : Rowset) (n : Z) : Rowset :=
  mkRowset n (rowset_state_machine r) (resources_open r).

Definition set_machine (r : Rowset) (m : RowsetStateMachine) : Rowset :=
  mkRowset (refs_by_reader r) m (resources_open r).

(** A rowset as its constructor leaves it: the state machine starts in
    [ROWSET_UNLOADED]; the constructor, which sets the reader count, is
    outside these sources, and the count starts at zero here. *)
Definition new_rowset : Rowset := mkRowset 0 new_machine false.

Definition do_close (r : Rowset) : Rowset * list Event :=
  (mkRowset (refs_by_reader r) (rowset_state_machine r) false, [EvDoClose]).

Definition do_load (r : Rowset) : Rowset * list Event :=
  (mkRowset (refs_by_reader r) (rowset_state_machine r) true, [EvDoLoad]).

(** The tail of [close()] after the locked block. *)
Definition close_report (st : Status) : list Event :=
  if ok st
  then [EvVLog]
  else [EvLogWarning st].

(** [void Rowset::close()]. *)
Definition close (r : Rowset) : Rowset * list Event :=
  let old_state := state r in
  if negb (RowsetState_eqb old_state ROWSET_LOADED) then (r, [])
  else
    (* lock_guard close_lock(_lock) *)
    let current_refs := refs_by_reader r in
    let old_state := state r in
    if negb (RowsetState_eqb old_state ROWSET_LOADED) then (r, [EvLock; EvUnlock])
    else
      let '(r1, e1) := if current_refs =? 0 then do_close r else (r, []) in
      let '(st, m) := on_close (rowset_state_machine r1) current_refs in
      (set_machine r1 m, [EvLock] ++ e1 ++ [EvUnlock] ++ close_report st).

(** [void Rowset::acquire()]: [++_refs_by_reader]. *)
Definition acquire (r : Rowset) : Rowset * list Event :=
  (set_refs r (wrap64 (refs_by_reader r + 1)), []).

(** [void Rowset::release()]. *)
Definition release (r : Rowset) : Rowset * list Event :=
  let current_refs := wrap64 (refs_by_reader r - 1) in
  let r0 := set_refs r current_refs in
  if current_refs =? 0 then
    (* lock_guard release_lock(_lock) *)
    let '(r1, e1) :=
      if (refs_by_reader r0 =? 0) && RowsetState_eqb (state r0) ROWSET_UNLOADING
      then
        let '(r', e) := do_close r0 in
        let '(_, m) := on_release (rowset_state_machine r') in
        (set_machine r' m, e)
      else (r0, []) in
    (r1, [EvLock] ++ e1 ++ [EvUnlock]
         ++ (if RowsetState_eqb (state r1) ROWSET_UNLOADED then [EvVLog] else []))
  else (r0, []).

(** Modelled from the spec: [Status Rowset::load()] is declared in the
    header ("May be called multiple times, subsequent calls will no-op")
    but its body is not part of these sources.  Following the
    specification, it is a no-op while the rowset is loaded; otherwise it
    takes the mutex and attempts [on_load()], which succeeds only from
    [ROWSET_UNLOADED] and then opens the resources; a refused transition is
    reported to the caller and changes nothing. *)
Definition load (r : Rowset) : Status * Rowset * list Event :=
  if RowsetState_eqb (state r) ROWSET_LOADED then (OK, r, [])
  else
    let '(st, m) := on_load (rowset_state_machine r) in
    if ok st then
      let '(r1, e1) := do_load r in
      (OK, set_machine r1 m, [EvLock] ++ e1 ++ [EvUnlock])
    else (st, r, [EvLock; EvUnlock]).

(** *** Sequences of calls on one rowset *)

Inductive Op : Type := OpLoad | OpClose | OpAcquire | OpRelease.

Definition step (o : Op) (r : Rowset) : Rowset * list Event :=
  match o with
  | OpLoad => let '(_, r', e) := load r in (r', e)
  | OpClose => close r
  | OpAcquire => acquire r
  | OpRelease => release r
  end.

Fixpoint run (ops : list Op) (r : Rowset) : Rowset * list Event :=
  match ops with
  | [] => (r, [])
  | o :: ops' =>
      let '(r1, e1) := step o r in
      let '(r2, e2) := run ops' r1 in
      (r2, e1 ++ e2)
  end.

(** Every [release] of the sequence has an [acquire] before it that no
    earlier [release] consumed, and fewer than 2^64 readers hold the
    rowset at any time; [n] is the number of readers at the start. *)
Fixpoint paired (n : Z) (ops : list Op) : bool :=
  match ops with
  | [] => true
  | OpAcquire :: t => (n + 1 <? UINT64_MOD) && paired (n + 1) t
  | OpRelease :: t => (0 <? n) && paired (n - 1) t
  | _ :: t => paired n t
  end.

(** The same without the upper bound: every [release] is matched. *)
Fixpoint matched (n : Z) (ops : list Op) : bool :=
  match ops with
  | [] => true
  | OpAcquire :: t => matched (n + 1) t
  | OpRelease :: t => (0 <? n) && matched (n - 1) t
  | _ :: t => matched n t
  end.

(** Readers left after the sequence when [n] held the rowset before. *)
Fixpoint readers_after (n : Z) (ops : list Op) : Z :=
  match ops with
  | [] => n
  | OpAcquire :: t => readers_after (n + 1) t
  | OpRelease :: t => readers_after (n - 1) t
  | _ :: t => readers_after n t
  end.

Definition is_load (o : Op) : bool :=
  match o with OpLoad => true | _ => false end.

Definition is_close (o : Op) : bool :=
  match o with OpClose => true | _ => false end.

(** Reading a trace: is [_lock] held after it, when it was [held] before?
    [None] when the trace locks a held mutex, unlocks a free one, or calls
    [do_load] / [do_close] without holding it. *)
Fixpoint mutex_after (held : bool) (tr : list Event) : option bool :=
  match tr with
  | [] => Some held
  | EvLock :: t => if held then None else mutex_after true t
  | EvUnlock :: t => if held then mutex_after false t else None
  | EvDoLoad :: t | EvDoClose :: t => if held then mutex_after held t else None
  | _ :: t => mutex_after held t
  end.

(** Reading a trace: are the resources open after it, when they were
    [opened] before?  [None] when [do_close] runs on closed resources or
    [do_load] on open ones, so [Some _] says that the calls alternate:
    one [do_close] for each [do_load]. *)
Fixpoint open_after (opened : bool) (tr : list Event) : option bool :=
  match tr with
  | [] => Some opened
  | EvDoLoad :: t => if opened then None else open_after true t
  | EvDoClose :: t => if opened then open_after false t else None
  | _ :: t => open_after opened t
  end.

Definition is_do_close (e : Event) : bool :=
  match e with EvDoClose => true | _ => false end.

(** How often [do_close] ran. *)
Definition closes (tr : list Event) : nat :=
  List.length (List.filter is_do_close tr).

(** *** What the proofs keep track of *)

(** The resources are open exactly when the state is not
    [ROWSET_UNLOADED]. *)
Definition consistent (r : Rowset) : Prop :=
  resources_open r = negb (RowsetState_eqb (state r) ROWSET_UNLOADED).

(** The counter is the number of readers, and a rowset that is unloading
    has a reader. *)
Definition tracked (n : Z) (r : Rowset) : Prop :=
  refs_by_reader r = n /\ 0 <= n < UINT64_MOD
  /\ (state r = ROWSET_UNLOADING -> 0 < n).

(** The sequence holds no [load]. *)
Definition no_load (ops : list Op) : bool :=
  forallb (fun o => negb (is_load o)) ops.

(** What a sequence without [load] reaches when it leaves no reader:
    from [ROWSET_LOADED] with a [close] in the sequence, and from
    [ROWSET_UNLOADING], one [do_close] and [ROWSET_UNLOADED]; from
    [ROWSET_UNLOADED], no [do_close]. *)
Definition drained (ops : list Op) (r : Rowset) (k : nat) : Prop :=
  state (fst (run ops r)) = ROWSET_UNLOADED /\ closes (snd (run ops r)) = k.

End RowsetLifecycle.

(* ================================================================== *)
(** ** Compaction scheduler ([compaction_scheduler.cpp])               *)
(* ================================================================== *)

Module Scheduler.

Inductive CompactionType : Type :=
| BASE_COMPACTION
| CUMULATIVE_COMPACTION.

Definition CompactionType_eqb (a b : CompactionType) : bool :=
  match a, b with
  | BASE_COMPACTION, BASE_COMPACTION => true
  | CUMULATIVE_COMPACTION, CUMULATIVE_COMPACTION => true
  | _, _ => false
  end.

(** The scheduler compares [tablet_state()] with [TABLET_RUNNING] only;
    the other enumerators are not named in these sources. *)
Inductive TabletState : Type :=
| TABLET_RUNNING
| TABLET_OTHER.

Definition TabletState_eqb (a b : TabletState) : bool :=
  match a, b with
  | TABLET_RUNNING, TABLET_RUNNING => true
  | TABLET_OTHER, TABLET_OTHER => true
  | _, _ => false
  end.

Definition TabletId : Type := Z.
Definition DataDirId : Type := Z.

(** Modelled from the spec: [class CompactionTask] is not part of these
    sources.  The scheduler reads its tablet, its kind and the size of
    its input rowsets, and sets its id once before submission. *)
Record CompactionTask : Type := mkTask {
  task_id : Z;
  task_tablet : TabletId;
  compaction_type : CompactionType;
  input_rowsets_size : Z
}.

Definition set_task_id (t : CompactionTask) (id : Z) : CompactionTask :=
  mkTask id (task_tablet t) (compaction_type t) (input_rowsets_size t).

(** Modelled from the spec: [class Tablet] is not part of these sources.
    The record holds what the scheduler reads through the tablet's
    accessors: its state, whether it needs compaction of each kind, the
    in-flight task of each kind (the marker that [get_compaction(kind,
    false)] returns and [reset_compaction(kind)] clears), the input size of
    the task it would build for each kind ([None] when it cannot build
    one), whether another thread holds the lock of each kind, the last
    failure time of each kind, and its data directory. *)
Record Tablet : Type := mkTablet {
  tablet_state : TabletState;
  need_cumulative_compaction : bool;
  need_base_compaction : bool;
  cumulative_task : option CompactionTask;
  base_task : option CompactionTask;
  cumulative_buildable : option Z;
  base_buildable : option Z;
  cumulative_lock_held : bool;
  base_lock_held : bool;
  last_cumu_compaction_failure_time : Z;
  last_base_compaction_failure_time : Z;
  data_dir : DataDirId
}.

Definition need_compaction (t : Tablet) (k : CompactionType) : bool :=
  match k with
  | CUMULATIVE_COMPACTION => need_cumulative_compaction t
  | BASE_COMPACTION => need_base_compaction t
  end.

Definition inflight (t : Tablet) (k : CompactionType) : option CompactionTask :=
  match k with
  | CUMULATIVE_COMPACTION => cumulative_task t
  | BASE_COMPACTION => base_task t
  end.

Definition buildable (t : Tablet) (k : CompactionType) : option Z :=
  match k with
  | CUMULATIVE_COMPACTION => cumulative_buildable t
  | BASE_COMPACTION => base_buildable t
  end.

Definition lock_held (t : Tablet) (k : CompactionType) : bool :=
  match k with
  | CUMULATIVE_COMPACTION => cumulative_lock_held t
  | BASE_COMPACTION => base_lock_held t
  end.

Definition last_failure_time (t : Tablet) (k : CompactionType) : Z :=
  match k with
  | CUMULATIVE_COMPACTION => last_cumu_compaction_failure_time t
  | BASE_COMPACTION => last_base_compaction_failure_time t
  end.

Definition set_inflight (t : Tablet) (k : CompactionType)
  (v : option CompactionTask) : Tablet :=
  match k with
  | CUMULATIVE_COMPACTION =>
      mkTablet (tablet_state t)
        (need_cumulative_compaction t) (need_base_compaction t)
        v (base_task t)
        (cumulative_buildable t) (base_buildable t)
        (cumulative_lock_held t) (base_lock_held t)
        (last_cumu_compaction_failure_time t)
        (last_base_compaction_failure_time t) (data_dir t)
  | BASE_COMPACTION =>
      mkTablet (tablet_state t)
        (need_cumulative_compaction t) (need_base_compaction t)
        (cumulative_task t) v
        (cumulative_buildable t) (base_buildable t)
        (cumulative_lock_held t) (base_lock_held t)
        (last_cumu_compaction_failure_time t)
        (last_base_compaction_failure_time t) (data_dir t)
  end.

(** Modelled from the spec: [Tablet::reset_compaction(kind)] clears the
    in-flight marker of that kind. *)
Definition reset_compaction (t : Tablet) (k : CompactionType) : Tablet :=
  set_inflight t k None.

(** Modelled from the spec: [Tablet::get_compaction(kind, create)] returns
    the in-flight task of that kind when there is one; otherwise, when
    asked to create, it builds one and records it as in flight, or returns
    none when the tablet does not need compaction of that kind or cannot
    build the task.  [self] is the shared pointer to the tablet, which the
    task keeps. *)
Definition get_compaction (self : TabletId) (t : Tablet) (k : CompactionType)
  (create_if_missing : bool) : option CompactionTask * Tablet :=
  match inflight t k with
  | Some task => (Some task, t)
  | None =>
      if create_if_missing && need_compaction t k then
        match buildable t k with
        | Some size =>
            let task := mkTask 0 self k size in
            (Some task, set_inflight t k (Some task))
        | None => (None, t)
        end
      else (None, t)
  end.

(** The tablets that the shared pointers of the candidates point to. *)
Definition Tablets : Type := TabletId -> Tablet.

Definition update_tablet (ts : Tablets) (id : TabletId) (t : Tablet) : Tablets :=
  fun i => if i =? id then t else ts i.

(** Modelled from the spec: [struct CompactionCandidate] is
    [{tablet, kind, score}]; [tablet] is a shared pointer ([None] is the
    null pointer) and a candidate is valid when it is not null.  The score
    is a floating-point number in the specification; only its order is
    used, and an integer stands for it here. *)
Record CompactionCandidate : Type := mkCandidate {
  tablet : option TabletId;
  type : CompactionType;
  score : Z
}.

Definition is_valid (c : CompactionCandidate) : bool :=
  match tablet c with Some _ => true | None => false end.

(** A default-constructed candidate. *)
Definition invalid_candidate : CompactionCandidate :=
  mkCandidate None BASE_COMPACTION 0.

(** Modelled from the spec: the candidate registry of [CompactionManager]
    is a pool of candidates that supports picking the candidate of highest
    score, inserting a list of candidates and reporting its size. *)
Definition Registry : Type := list CompactionCandidate.

Definition candidates_size (r : Registry) : Z := Z.of_nat (List.length r).

(** The best of [c :: l] and the others, in their order. *)
Fixpoint pick_from (c : CompactionCandidate) (l : list CompactionCandidate)
  : CompactionCandidate * list CompactionCandidate :=
  match l with
  | [] => (c, [])
  | d :: t =>
      if score c <? score d
      then let '(b, r) := pick_from d t in (b, c :: r)
      else let '(b, r) := pick_from c t in (b, d :: r)
  end.

Definition pick_candidate (r : Registry) : CompactionCandidate * Registry :=
  match r with
  | [] => (invalid_candidate, [])
  | c :: l => pick_from c l
  end.

Definition insert_candidates (cs : list CompactionCandidate) (r : Registry) : Registry :=
  r ++ cs.

Definition update_candidates (cs : list CompactionCandidate) (r : Registry) : Registry :=
  r ++ cs.

(** What the scheduler reads from the storage engine, the data
    directories, the configuration and the clock during one round. *)
Record Env : Type := mkEnv {
  check_if_exceed_max_task_num : bool;
  running_cumulative_tasks_num_for_dir : DataDirId -> Z;
  running_base_tasks_num_for_dir : DataDirId -> Z;
  reach_capacity_limit : DataDirId -> Z -> bool;
  cumulative_compaction_num_threads_per_disk : Z;
  base_compaction_num_threads_per_disk : Z;
  min_compaction_failure_interval_sec : Z;
  UnixMillis : Z
}.

(** The running count is stored in a [uint16_t]. *)
Definition to_uint16 (z : Z) : Z := z mod 2 ^ 16.

(** [CompactionScheduler::_can_schedule_next]. *)
Definition _can_schedule_next (env : Env) (r : Registry) : bool :=
  negb (check_if_exceed_max_task_num env) && (0 <? candidates_size r).

(** [int64_t] arithmetic as the compiled code performs it: a difference
    or a product outside the range wraps around modulo 2^64 (the language
    leaves such an overflow undefined). *)
Definition wrap_int64 (z : Z) : Z := (z + 2 ^ 63) mod 2 ^ 64 - 2 ^ 63.

(** The value is representable as an [int64_t]. *)
Definition in_int64 (z : Z) : Prop := - 2 ^ 63 <= z < 2 ^ 63.

(** The body of [_can_do_compaction_task]: its result and the value of
    [need_reset_task] when it returns.  A lock that [try_to_lock] took is
    released when its block is left, so only a lock held elsewhere shows.
    [now_ms] and [last_failure_ms] are [int64_t]; the configured interval,
    whose declaration is outside these sources, is read as an [int64_t]
    like the difference it is compared with. *)
Definition can_do_compaction_task_body (env : Env) (tablet : Tablet)
  (compaction_task : CompactionTask) : bool * bool :=
  let need_reset_task := true in
  let data_dir := data_dir tablet in
  let backoff (last_failure_ms : Z) : bool * bool :=
    let now_ms := UnixMillis env in
    if wrap_int64 (now_ms - last_failure_ms)
       <=? wrap_int64 (min_compaction_failure_interval_sec env * 1000)
    then (false, need_reset_task)
    else (true, false) in
  if CompactionType_eqb (compaction_type compaction_task) CUMULATIVE_COMPACTION then
    (* unique_lock lk(tablet->get_cumulative_lock(), try_to_lock) *)
    if cumulative_lock_held tablet then (false, need_reset_task)
    else
      let num := to_uint16 (running_cumulative_tasks_num_for_dir env data_dir) in
      if (0 <=? cumulative_compaction_num_threads_per_disk env)
         && (cumulative_compaction_num_threads_per_disk env <=? num)
      then (false, need_reset_task)
      else backoff (last_cumu_compaction_failure_time tablet)
  else
    (* unique_lock lk(tablet->get_base_lock(), try_to_lock) *)
    if base_lock_held tablet then (false, need_reset_task)
    else
      let num := to_uint16 (running_base_tasks_num_for_dir env data_dir) in
      if (0 <=? base_compaction_num_threads_per_disk env)
         && (base_compaction_num_threads_per_disk env <=? num)
      then (false, need_reset_task)
      else backoff (last_base_compaction_failure_time tablet).

(** [CompactionScheduler::_can_do_compaction_task]: the body, then the
    deferred [reset_op]. *)
Definition _can_do_compaction_task (env : Env) (tablet : Tablet)
  (compaction_task : CompactionTask) : bool * Tablet :=
  let '(result, need_reset_task) :=
    can_do_compaction_task_body env tablet compaction_task in
  (result,
   if need_reset_task
   then reset_compaction tablet (compaction_type compaction_task)
   else tablet).

(** [CompactionScheduler::_check_precondition]. *)
Definition _check_precondition (ts : Tablets) (candidate : CompactionCandidate) : bool :=
  match tablet candidate with
  | None => false
  | Some id =>
      let tablet := ts id in
      if negb (need_compaction tablet (type candidate)) then false
      else if negb (TabletState_eqb (tablet_state tablet) TABLET_RUNNING) then false
      else
        match fst (get_compaction id tablet (type candidate) false) with
        | Some _ => false
        | None => true
        end
  end.

(** What [_can_do_compaction] hands back: its result, [*need_reschedule],
    the task it stored in [*compaction_task] (if it stored one) and the
    tablets. *)
Record Verdict : Type := mkVerdict {
  can_do : bool;
  need_reschedule : bool;
  new_task : option CompactionTask;
  tablets_after : Tablets
}.

(** [CompactionScheduler::_can_do_compaction]. *)
Definition _can_do_compaction (env : Env) (ts : Tablets)
  (candidate : CompactionCandidate) : Verdict :=
  (* *need_reschedule = false *)
  let precondition_ok := _check_precondition ts candidate in
  if negb precondition_ok then mkVerdict false false None ts
  else
    (* *need_reschedule = true *)
    match tablet candidate with
    | None => mkVerdict false true None ts (* not reached: a null tablet fails the precondition *)
    | Some id =>
        let '(tmp_task, tablet) := get_compaction id (ts id) (type candidate) true in
        let ts1 := update_tablet ts id tablet in
        match tmp_task with
        | Some task =>
            if reach_capacity_limit env (data_dir tablet) (input_rowsets_size task)
            then mkVerdict false true None ts1
            else
              let '(can_do, tablet') := _can_do_compaction_task env tablet task in
              mkVerdict can_do (negb can_do)
                (if can_do then Some task else None)
                (update_tablet ts1 id tablet')
        | None => mkVerdict false true None ts1
        end
    end.

(** The variables of [_try_get_next_compaction_task] that live across
    iterations, with the registry and the tablets. *)
Record LoopState : Type := mkLoop {
  registry : Registry;
  tablets : Tablets;
  tmp_candidates : list CompactionCandidate;
  found : bool;
  compaction_task : option CompactionTask
}.

(** One iteration of [while (true)]; the boolean says whether the loop
    goes on ([false] is a [break]).  [DCHECK] is compiled out of release
    builds and does not change the state; its condition is kept apart as
    [dcheck_found]. *)
Definition loop_body (env : Env) (s : LoopState) : LoopState * bool :=
  if negb (_can_schedule_next env (registry s)) then (s, false)
  else
    let '(compaction_candidate, rest) := pick_candidate (registry s) in
    if negb (is_valid compaction_candidate)
    then (mkLoop rest (tablets s) (tmp_candidates s) (found s) (compaction_task s), false)
    else
      let v := _can_do_compaction env (tablets s) compaction_candidate in
      let tmp :=
        if need_reschedule v
        then tmp_candidates s ++ [compaction_candidate]
        else tmp_candidates s (* DCHECK(found): see [dcheck_found] *) in
      let task :=
        match new_task v with
        | Some t => Some t
        | None => compaction_task s
        end in
      (mkLoop rest (tablets_after v) tmp (can_do v) task, negb (can_do v)).

(** The condition of [DCHECK(found)] in the branch where it stands. *)
Definition dcheck_found (v : Verdict) : bool :=
  need_reschedule v || can_do v.

Fixpoint select_loop (fuel : nat) (env : Env) (s : LoopState) : option LoopState :=
  match fuel with
  | O => None
  | S fuel' =>
      let '(s', again) := loop_body env s in
      if again then select_loop fuel' env s' else Some s'
  end.

(** The registry and the tablets between two rounds. *)
Record World : Type := mkWorld {
  candidates : Registry;
  all_tablets : Tablets
}.

Definition loop_start (w : World) : LoopState :=
  mkLoop (candidates w) (all_tablets w) [] false None.

(** The state in which the selection loop of one round ends.  Every
    iteration that goes on has taken a candidate out of the registry, so
    one iteration more than the registry has candidates is enough (see
    [round_end_returns]). *)
Definition round_end (env : Env) (w : World) : option LoopState :=
  select_loop (S (List.length (candidates w))) env (loop_start w).

(** [CompactionScheduler::_try_get_next_compaction_task]: the loop, then
    the bulk insertion of [tmp_candidates]. *)
Definition _try_get_next_compaction_task (env : Env) (w : World)
  : option (option CompactionTask * World) :=
  match round_end env w with
  | None => None
  | Some s =>
      let w' := mkWorld (insert_candidates (tmp_candidates s) (registry s)) (tablets s) in
      Some (if found s then compaction_task s else None, w')
  end.

Definition CompactionTask_eqb (a b : CompactionTask) : bool :=
  (task_id a =? task_id b) && (task_tablet a =? task_tablet b)
  && CompactionType_eqb (compaction_type a) (compaction_type b)
  && (input_rowsets_size a =? input_rowsets_size b).

(** [compaction_task->set_task_id(...)] in [schedule()].  The task is one
    object behind a shared pointer: the tablet that has this task in
    flight holds the same object and sees the new id as well. *)
Definition assign_task_id (next_task_id : Z) (compaction_task : CompactionTask)
  (w : World) : CompactionTask * World :=
  let id := task_tablet compaction_task in
  let k := compaction_type compaction_task in
  let tablet := all_tablets w id in
  let task' := set_task_id compaction_task next_task_id in
  let tablet' :=
    match inflight tablet k with
    | Some held =>
        if CompactionTask_eqb held compaction_task
        then set_inflight tablet k (Some task')
        else tablet
    | None => tablet
    end in
  (task', mkWorld (candidates w) (update_tablet (all_tablets w) id tablet')).

(** The part of [schedule()] after a task was selected: the task gets its
    id and goes to the pool; [submitted] is whether [submit_func] returned
    an OK status. *)
Definition submit_task (submitted : bool) (next_task_id : Z)
  (compaction_task : CompactionTask) (w : World) : CompactionTask * World :=
  let '(compaction_task, w) := assign_task_id next_task_id compaction_task w in
  if submitted then (compaction_task, w)
  else
    let id := task_tablet compaction_task in
    let ts := update_tablet (all_tablets w) id
                (reset_compaction (all_tablets w id) (compaction_type compaction_task)) in
    let candidate := mkCandidate (Some id) (compaction_type compaction_task)
                       (score invalid_candidate) in
    (compaction_task, mkWorld (update_candidates [candidate] (candidates w)) ts).

(** One turn of the loop of [schedule()], once [_wait_to_run] has
    returned. *)
Definition schedule_round (env : Env) (submitted : bool) (next_task_id : Z) (w : World)
  : option World :=
  match _try_get_next_compaction_task env w with
  | None => None
  | Some (None, w') => Some w'
  | Some (Some task, w') => Some (snd (submit_task submitted next_task_id task w'))
  end.

(** [reaches env s s']: the loop, entered in state [s], is in state [s']
    at the top of one of its iterations. *)
Inductive reaches (env : Env) : LoopState -> LoopState -> Prop :=
| reaches_here (s : LoopState) : reaches env s s
| reaches_next (s s1 s2 : LoopState) :
    loop_body env s = (s1, true) -> reaches env s1 s2 -> reaches env s s2.

(** The candidates at hand: the scratch list and the registry. *)
Definition at_hand (s : LoopState) : list CompactionCandidate :=
  tmp_candidates s ++ registry s.

(** *** The checks that make a candidate wait, in the words of the
    specification *)

(** The per-disk count of running tasks of this kind is at its configured
    maximum (a negative maximum means no limit). *)
Definition per_disk_cap_reached (env : Env) (t : Tablet) (k : CompactionType) : bool :=
  match k with
  | CUMULATIVE_COMPACTION =>
      (0 <=? cumulative_compaction_num_threads_per_disk env)
      && (cumulative_compaction_num_threads_per_disk env
          <=? to_uint16 (running_cumulative_tasks_num_for_dir env (data_dir t)))
  | BASE_COMPACTION =>
      (0 <=? base_compaction_num_threads_per_disk env)
      && (base_compaction_num_threads_per_disk env
          <=? to_uint16 (running_base_tasks_num_for_dir env (data_dir t)))
  end.

(** The last failure of this kind is no further back than the minimum
    failure interval, as the code compares them (in [int64_t]). *)
Definition within_backoff (env : Env) (t : Tablet) (k : CompactionType) : bool :=
  wrap_int64 (UnixMillis env - last_failure_time t k)
  <=? wrap_int64 (min_compaction_failure_interval_sec env * 1000).

(** The data directory would pass its capacity limit, the lock of the
    tablet is taken, the per-disk maximum is reached, or the tablet is in
    its backoff window. *)
Definition transient_failure (env : Env) (t : Tablet) (task : CompactionTask) : bool :=
  reach_capacity_limit env (data_dir t) (input_rowsets_size task)
  || lock_held t (compaction_type task)
  || per_disk_cap_reached env t (compaction_type task)
  || within_backoff env t (compaction_type task).

(** *** A small installation *)

(** No limit on the number of tasks is reached, a data directory takes
    tasks of up to 1000 bytes, two tasks of a kind may run per disk and
    none runs, the minimum failure interval is 120 s, and the clock shows
    1,000,000 ms. *)
Definition ex_env : Env :=
  mkEnv false (fun _ => 0) (fun _ => 0) (fun _ size => 1000 <? size) 2 2 120 1000000.

(** A running tablet that needs cumulative compaction, can build a task
    of 10 bytes, and is neither locked nor in flight. *)
Definition ex_ready (last_failure : Z) : Tablet :=
  mkTablet TABLET_RUNNING true false None None (Some 10) None false false
    last_failure 0 7.

(** Tablet 1 is ready; tablet 2 is ready but cannot build its task;
    tablet 3 is not running; the lock of tablet 4 is held; tablet 5
    failed one second ago; every other tablet is not running. *)
Definition ex_tablets : Tablets :=
  fun id =>
    if id =? 1 then ex_ready 0
    else if id =? 2 then
      mkTablet TABLET_RUNNING true false None None None None false false 0 0 7
    else if id =? 4 then
      mkTablet TABLET_RUNNING true false None None (Some 10) None true false 0 0 7
    else if id =? 5 then ex_ready 999000
    else mkTablet TABLET_OTHER true false None None (Some 10) None false false 0 0 7.

Definition ex_candidate (id score : Z) : CompactionCandidate :=
  mkCandidate (Some id) CUMULATIVE_COMPACTION score.

Definition ex_world (r : Registry) : World := mkWorld r ex_tablets.

End Scheduler.

(* ================================================================== *)
(** ** Readers, guards and lists of rowsets ([rowset.h])               *)
(* ================================================================== *)

Module RowsetUse.
Import RowsetLifecycle.

(** [n] readers hold the rowset before the sequence, and at every point
    of it at least one and fewer than 2^64 do. *)
Fixpoint held (n : Z) (ops : list Op) : bool :=
  (0 <? n) && (n <? UINT64_MOD)
  && match ops with
     | [] => true
     | OpAcquire :: t => held (n + 1) t
     | OpRelease :: t => held (n - 1) t
     | _ :: t => held n t
     end.

(** [class RowsetReleaseGuard]: the constructor calls [acquire()], the
    destructor [release()]; [body] is what runs while the guard lives. *)
Definition with_guard (body : Rowset -> Rowset * list Event) (r : Rowset)
  : Rowset * list Event :=
  let '(r1, e1) := acquire r in
  let '(r2, e2) := body r1 in
  let '(r3, e3) := release r2 in
  (r3, e1 ++ e2 ++ e3).

(** The rowsets that the shared pointers of a vector point to; a vector
    may hold the same pointer more than once. *)
Definition Rowsets : Type := nat -> Rowset.

Definition update_rowset (st : Rowsets) (p : nat) (r : Rowset) : Rowsets :=
  fun i => if Nat.eqb i p then r else st i.

(** [std::for_each(rowsets.begin(), rowsets.end(), f)] for a method [f]
    of the rowset. *)
Fixpoint for_each (f : Rowset -> Rowset * list Event) (rowsets : list nat)
  (st : Rowsets) : Rowsets * list Event :=
  match rowsets with
  | [] => (st, [])
  | p :: rest =>
      let '(r, e1) := f (st p) in
      let '(st', e2) := for_each f rest (update_rowset st p r) in
      (st', e1 ++ e2)
  end.

(** [Rowset::acquire_readers], [Rowset::release_readers] and
    [Rowset::close_rowsets]. *)
Definition acquire_readers : list nat -> Rowsets -> Rowsets * list Event :=
  for_each acquire.

Definition release_readers : list nat -> Rowsets -> Rowsets * list Event :=
  for_each release.

Definition close_rowsets : list nat -> Rowsets -> Rowsets * list Event :=
  for_each close.

(** What the accessors of [Rowset] read from [rowset_meta()]: the version
    range (a pair of [int64_t]), the number of segments ([int64_t]) and
    the number of delete files ([uint32_t]).  [class RowsetMeta] itself is
    outside these sources. *)
Record RowsetMeta : Type := mkMeta {
  version_first : Z;
  version_second : Z;
  meta_num_segments : Z;
  meta_num_delete_files : Z
}.

Definition start_version (m : RowsetMeta) : Z := version_first m.
Definition end_version (m : RowsetMeta) : Z := version_second m.
Definition num_segments (m : RowsetMeta) : Z := meta_num_segments m.
Definition num_delete_files (m : RowsetMeta) : Z := meta_num_delete_files m.

(** [Rowset::has_data_files]. *)
Definition has_data_files (m : RowsetMeta) : bool :=
  (0 <? num_segments m) || (0 <? num_delete_files m).

(** [Rowset::comparator]. *)
Definition comparator (left right : RowsetMeta) : bool :=
  end_version left <? end_version right.

(** [Rowset::get_segment_num]: the accumulator is a [size_t], so each
    [+=] of an [int64_t] is an addition modulo 2^64. *)
Definition get_segment_num (rowsets : list RowsetMeta) : Z :=
  List.fold_left (fun num_segments_acc m => wrap64 (num_segments_acc + num_segments m))
    rowsets 0.

(** The sum of the segment counts, as an integer. *)
Definition total_segments (rowsets : list RowsetMeta) : Z :=
  List.fold_right (fun m acc => num_segments m + acc) 0 rowsets.

(** How often the pointer [p] stands in the vector. *)
Definition occurrences (rowsets : list nat) (p : nat) : nat :=
  List.count_occ Nat.eq_dec rowsets p.

End RowsetUse.

(* ================================================================== *)
(** ** What a selection round leaves alone                             *)
(* ================================================================== *)

Module SchedulerUse.
Import Scheduler.

(** The two tablets differ at most in their in-flight tasks. *)
Definition same_but_inflight (t t' : Tablet) : Prop :=
  tablet_state t' = tablet_state t
  /\ need_cumulative_compaction t' = need_cumulative_compaction t
  /\ need_base_compaction t' = need_base_compaction t
  /\ cumulative_buildable t' = cumulative_buildable t
  /\ base_buildable t' = base_buildable t
  /\ cumulative_lock_held t' = cumulative_lock_held t
  /\ base_lock_held t' = base_lock_held t
  /\ last_cumu_compaction_failure_time t' = last_cumu_compaction_failure_time t
  /\ last_base_compaction_failure_time t' = last_base_compaction_failure_time t
  /\ data_dir t' = data_dir t.

(** [config::cumulative_compaction_num_threads_per_disk] or
    [config::base_compaction_num_threads_per_disk], by kind. *)
Definition threads_per_disk (env : Env) (k : CompactionType) : Z :=
  match k with
  | CUMULATIVE_COMPACTION => cumulative_compaction_num_threads_per_disk env
  | BASE_COMPACTION => base_compaction_num_threads_per_disk env
  end.

(** As [ex_env], with the data directory full. *)
Definition ex_env_full : Env :=
  mkEnv false (fun _ => 0) (fun _ => 0) (fun _ _ => true) 2 2 120 1000000.

End SchedulerUse.

(* ================================================================== *)
(** ** Properties of the rowset lifecycle                              *)
(* ================================================================== *)

Module RowsetFacts.
Import RowsetLifecycle.

Lemma RowsetState_eqb_eq (a b : RowsetState) :
  RowsetState_eqb a b = true <-> a = b.
Proof. destruct a, b; simpl; split; intro H; try reflexivity; discriminate H. Qed.

Lemma RowsetState_eqb_neq (a b : RowsetState) :
  RowsetState_eqb a b = false <-> a <> b.
Proof.
  destruct a, b; simpl; split; intro H; try reflexivity;
    try discriminate H; try (intro E; discriminate E); exfalso; apply H; reflexivity.
Qed.

(** *** The three cases of [close] *)

Lemma close_not_loaded (r : Rowset) :
  state r <> ROWSET_LOADED -> close r = (r, []).
Proof.
  intro H. unfold close.
  apply RowsetState_eqb_neq in H. rewrite H. reflexivity.
Qed.

Lemma close_loaded_idle (r : Rowset) :
  state r = ROWSET_LOADED -> refs_by_reader r = 0 ->
  close r = (mkRowset 0 (mkMachine ROWSET_UNLOADED) false,
             [EvLock; EvDoClose; EvUnlock; EvVLog]).
Proof.
  destruct r as [n [s] b]. unfold state. simpl. intros -> ->. reflexivity.
Qed.

Lemma close_loaded_busy (r : Rowset) :
  state r = ROWSET_LOADED -> refs_by_reader r <> 0 ->
  close r = (mkRowset (refs_by_reader r) (mkMachine ROWSET_UNLOADING) (resources_open r),
             [EvLock; EvUnlock; EvVLog]).
Proof.
  destruct r as [n [s] b]. unfold state. simpl. intros -> Hn.
  unfold close, state. simpl.
  apply Z.eqb_neq in Hn. rewrite Hn. simpl.
  unfold on_close. simpl. rewrite Hn. reflexivity.
Qed.

(** *** The three cases of [release] *)

Lemma release_readers_left (r : Rowset) :
  wrap64 (refs_by_reader r - 1) <> 0 ->
  release r = (set_refs r (wrap64 (refs_by_reader r - 1)), []).
Proof.
  intro H. unfold release. apply Z.eqb_neq in H. rewrite H. reflexivity.
Qed.

Lemma release_last_unloading (r : Rowset) :
  wrap64 (refs_by_reader r - 1) = 0 -> state r = ROWSET_UNLOADING ->
  release r = (mkRowset 0 (mkMachine ROWSET_UNLOADED) false,
               [EvLock; EvDoClose; EvUnlock; EvVLog]).
Proof.
  destruct r as [n [s] b]. unfold state. simpl. intros H ->.
  unfold release. simpl. rewrite H. reflexivity.
Qed.

Lemma release_last_other (r : Rowset) :
  wrap64 (refs_by_reader r - 1) = 0 -> state r <> ROWSET_UNLOADING ->
  release r = (set_refs r 0,
               [EvLock; EvUnlock]
                 ++ (if RowsetState_eqb (state r) ROWSET_UNLOADED then [EvVLog] else [])).
Proof.
  destruct r as [n [s] b]. unfold state. simpl. intros H Hs.
  unfold release. simpl. rewrite H. simpl.
  destruct s; try (exfalso; apply Hs; reflexivity); reflexivity.
Qed.

(** *** The cases of [load] *)

Lemma load_unloaded (r : Rowset) :
  state r = ROWSET_UNLOADED ->
  load r = (OK, mkRowset (refs_by_reader r) (mkMachine ROWSET_LOADED) true,
            [EvLock; EvDoLoad; EvUnlock]).
Proof. destruct r as [n [s] b]. unfold state. simpl. intros ->. reflexivity. Qed.

Lemma load_loaded (r : Rowset) :
  state r = ROWSET_LOADED -> load r = (OK, r, []).
Proof. destruct r as [n [s] b]. unfold state. simpl. intros ->. reflexivity. Qed.

Lemma load_unloading (r : Rowset) :
  state r = ROWSET_UNLOADING ->
  exists msg : string, load r = (InternalError msg, r, [EvLock; EvUnlock]).
Proof.
  destruct r as [n [s] b]. unfold state. simpl. intros ->.
  eexists. reflexivity.
Qed.

(** *** Reading traces *)

Lemma mutex_after_app (h : bool) (a b : list Event) :
  mutex_after h (a ++ b) =
  match mutex_after h a with
  | Some h' => mutex_after h' b
  | None => None
  end.
Proof.
  revert h. induction a as [|e a IH]; intro h; simpl.
  - reflexivity.
  - destruct e, h; simpl; auto.
Qed.

Lemma open_after_app (o : bool) (a b : list Event) :
  open_after o (a ++ b) =
  match open_after o a with
  | Some o' => open_after o' b
  | None => None
  end.
Proof.
  revert o. induction a as [|e a IH]; intro o; simpl.
  - reflexivity.
  - destruct e, o; simpl; auto.
Qed.

Lemma closes_app (a b : list Event) :
  closes (a ++ b) = (closes a + closes b)%nat.
Proof. unfold closes. rewrite List.filter_app, List.length_app. reflexivity. Qed.

Lemma run_cons (o : Op) (ops : list Op) (r : Rowset) :
  run (o :: ops) r =
  (fst (run ops (fst (step o r))), snd (step o r) ++ snd (run ops (fst (step o r)))).
Proof.
  simpl. destruct (step o r) as [r1 e1]. simpl.
  destruct (run ops r1) as [r2 e2]. reflexivity.
Qed.

(** *** What every sequence of calls keeps *)


Lemma step_consistent (o : Op) (r : Rowset) :
  consistent r ->
  consistent (fst (step o r))
  /\ mutex_after false (snd (step o r)) = Some false
  /\ open_after (resources_open r) (snd (step o r)) = Some (resources_open (fst (step o r))).
Proof.
  unfold consistent. destruct r as [n [s] b]. unfold state. simpl. intros ->.
  destruct o; simpl.
  - destruct s; simpl; auto.
  - destruct s; simpl; auto.
    unfold close, state, on_close; simpl. destruct (n =? 0); simpl; auto.
  - destruct s; simpl; auto.
  - unfold release, state; simpl.
    destruct (wrap64 (n - 1) =? 0); simpl; [|destruct s; simpl; auto].
    destruct s; simpl; auto.
Qed.

Lemma run_consistent (ops : list Op) : forall r : Rowset,
  consistent r ->
  consistent (fst (run ops r))
  /\ mutex_after false (snd (run ops r)) = Some false
  /\ open_after (resources_open r) (snd (run ops r)) = Some (resources_open (fst (run ops r))).
Proof.
  induction ops as [|o ops IH]; intros r Hr.
  - simpl. auto.
  - rewrite run_cons. simpl.
    destruct (step_consistent o r Hr) as (H1 & H2 & H3).
    destruct (IH _ H1) as (K1 & K2 & K3).
    rewrite mutex_after_app, H2, open_after_app, H3. auto.
Qed.

(** *** What paired sequences keep *)


Lemma UINT64_MOD_pos : 0 < UINT64_MOD.
Proof. reflexivity. Qed.

Lemma wrap64_small (z : Z) : 0 <= z < UINT64_MOD -> wrap64 z = z.
Proof. intro H. unfold wrap64. apply Z.mod_small. exact H. Qed.

(** Linear arithmetic with the modulus written out. *)
Ltac lia64 := change UINT64_MOD with 18446744073709551616 in *; lia.

Ltac tracked_now :=
  split; [ try assumption; try lia64
         | split; [ lia64
                 | first [ discriminate | assumption
                         | intro;
                           first [ congruence | lia64
                                 | match goal with
                                   | H : _ -> 0 < ?n |- 0 < ?n => apply H; congruence
                                   end ] ] ] ].

Lemma run_tracked (ops : list Op) : forall (n : Z) (r : Rowset),
  tracked n r -> paired n ops = true ->
  state (fst (run ops r)) = ROWSET_UNLOADING -> 0 < refs_by_reader (fst (run ops r)).
Proof.
  induction ops as [|o ops IH]; intros n r (Hn & Hb & Hu) Hp.
  - simpl. intro H. rewrite Hn. auto.
  - rewrite run_cons. simpl fst.
    destruct o; simpl in Hp.
    + (* load *)
      apply (IH n); [|exact Hp].
      destruct (state r) eqn:Hs; simpl.
      * rewrite (load_unloaded r Hs). simpl. unfold tracked, state. simpl. tracked_now.
      * rewrite (load_loaded r Hs). simpl. tracked_now.
      * destruct (load_unloading r Hs) as [msg E]. rewrite E. simpl. tracked_now.
    + (* close *)
      apply (IH n); [|exact Hp]. simpl.
      destruct (state r) eqn:Hs.
      * rewrite close_not_loaded by (rewrite Hs; discriminate).
        simpl. tracked_now.
      * destruct (Z.eq_dec (refs_by_reader r) 0) as [E|E].
        -- rewrite (close_loaded_idle r Hs E). unfold tracked, state. simpl. tracked_now.
        -- rewrite (close_loaded_busy r Hs E). unfold tracked, state. simpl. tracked_now.
      * rewrite close_not_loaded by (rewrite Hs; discriminate).
        simpl. tracked_now.
    + (* acquire *)
      apply andb_prop in Hp. destruct Hp as [Hlt Hp]. apply Z.ltb_lt in Hlt.
      apply (IH (n + 1)); [|exact Hp]. simpl.
      unfold tracked, state. simpl. rewrite Hn, wrap64_small by lia64.
      tracked_now.
    + (* release *)
      apply andb_prop in Hp. destruct Hp as [Hlt Hp]. apply Z.ltb_lt in Hlt.
      apply (IH (n - 1)); [|exact Hp]. simpl.
      assert (Hw : wrap64 (refs_by_reader r - 1) = n - 1)
        by (rewrite Hn; apply wrap64_small; lia64).
      destruct (Z.eq_dec (n - 1) 0) as [E|E].
      * destruct (state r) eqn:Hs.
        -- rewrite release_last_other by (try rewrite Hs; try discriminate; lia64).
           unfold tracked, state. simpl. unfold state in Hs. rewrite Hs. tracked_now.
        -- rewrite release_last_other by (try rewrite Hs; try discriminate; lia64).
           unfold tracked, state. simpl. unfold state in Hs. rewrite Hs. tracked_now.
        -- rewrite release_last_unloading by (auto; lia64).
           unfold tracked, state. simpl. tracked_now.
      * rewrite release_readers_left by lia64.
        unfold tracked, state. simpl. rewrite Hw. tracked_now.
Qed.


(** *** Draining the readers after [close] *)

Lemma wrap64_succ (n : Z) : wrap64 (wrap64 n + 1) = wrap64 (n + 1).
Proof. unfold wrap64. apply Zplus_mod_idemp_l. Qed.

Lemma wrap64_pred (n : Z) : wrap64 (wrap64 n - 1) = wrap64 (n - 1).
Proof. unfold wrap64. apply Zminus_mod_idemp_l. Qed.

Lemma wrap64_nonzero (n : Z) : wrap64 n <> 0 -> n <> 0.
Proof. intros H E. apply H. rewrite E. reflexivity. Qed.



Lemma drain (ops : list Op) : forall (n : Z) (r : Rowset),
  0 <= n -> refs_by_reader r = wrap64 n ->
  no_load ops = true -> matched n ops = true -> readers_after n ops = 0 ->
  match state r with
  | ROWSET_LOADED => existsb is_close ops = true -> drained ops r 1
  | ROWSET_UNLOADING => 0 < n -> drained ops r 1
  | ROWSET_UNLOADED => drained ops r 0
  end.
Proof.
  induction ops as [|o ops IH]; intros n r Hn Hr Hl Hm Hz.
  - simpl in Hz. subst n. destruct (state r) eqn:Hs.
    + split; [exact Hs | reflexivity].
    + simpl. discriminate.
    + intro H. lia.
  - unfold drained. rewrite run_cons. simpl fst. simpl snd. rewrite closes_app.
    destruct o; simpl in Hl, Hm, Hz; try discriminate Hl; cbn [step].
    + (* close *)
      destruct (state r) eqn:Hs.
      * rewrite close_not_loaded by (rewrite Hs; discriminate). simpl.
        specialize (IH n r Hn Hr Hl Hm Hz). rewrite Hs in IH. exact IH.
      * intros _. destruct (Z.eq_dec (refs_by_reader r) 0) as [E|E].
        -- rewrite (close_loaded_idle r Hs E). simpl.
           specialize (IH n (mkRowset 0 (mkMachine ROWSET_UNLOADED) false) Hn).
           simpl in IH. rewrite <- E in IH at 1. specialize (IH Hr Hl Hm Hz).
           destruct IH as [I1 I2]. rewrite I1, I2. split; reflexivity.
        -- rewrite (close_loaded_busy r Hs E). simpl.
           assert (Hpos : 0 < n).
           { rewrite Hr in E. apply wrap64_nonzero in E. lia. }
           specialize (IH n (mkRowset (refs_by_reader r) (mkMachine ROWSET_UNLOADING)
                               (resources_open r)) Hn Hr Hl Hm Hz).
           simpl in IH. exact (IH Hpos).
      * intro Hpos. rewrite close_not_loaded by (rewrite Hs; discriminate). simpl.
        specialize (IH n r Hn Hr Hl Hm Hz). rewrite Hs in IH. exact (IH Hpos).
    + (* acquire *)
      simpl.
      assert (Hr' : refs_by_reader (set_refs r (wrap64 (refs_by_reader r + 1)))
                    = wrap64 (n + 1)).
      { simpl. rewrite Hr. apply wrap64_succ. }
      assert (Hn' : 0 <= n + 1) by lia.
      specialize (IH (n + 1) _ Hn' Hr' Hl Hm Hz).
      unfold state in *. simpl in IH.
      destruct (rowset_state (rowset_state_machine r)); auto.
      intros _. apply IH. lia.
    + (* release *)
      apply andb_prop in Hm. destruct Hm as [Hlt Hm]. apply Z.ltb_lt in Hlt.
      assert (Hn' : 0 <= n - 1) by lia.
      assert (Hw : wrap64 (refs_by_reader r - 1) = wrap64 (n - 1)).
      { rewrite Hr. apply wrap64_pred. }
      destruct (Z.eq_dec (wrap64 (n - 1)) 0) as [E|E].
      * destruct (state r) eqn:Hs.
        -- rewrite release_last_other by (try rewrite Hs; try discriminate; congruence).
           simpl.
           assert (Hr' : refs_by_reader (set_refs r 0) = wrap64 (n - 1))
             by (simpl; congruence).
           specialize (IH (n - 1) _ Hn' Hr' Hl Hm Hz).
           unfold state in *. simpl in IH. rewrite Hs in IH. rewrite Hs. exact IH.
        -- rewrite release_last_other by (try rewrite Hs; try discriminate; congruence).
           simpl.
           assert (Hr' : refs_by_reader (set_refs r 0) = wrap64 (n - 1))
             by (simpl; congruence).
           specialize (IH (n - 1) _ Hn' Hr' Hl Hm Hz).
           unfold state in *. simpl in IH. rewrite Hs in IH. rewrite Hs. exact IH.
        -- intros _. rewrite release_last_unloading by congruence. simpl.
           specialize (IH (n - 1) (mkRowset 0 (mkMachine ROWSET_UNLOADED) false) Hn').
           simpl in IH. rewrite E in IH. specialize (IH eq_refl Hl Hm Hz).
           destruct IH as [I1 I2]. rewrite I1, I2. split; reflexivity.
      * rewrite release_readers_left by congruence. simpl.
        assert (Hr' : refs_by_reader (set_refs r (wrap64 (refs_by_reader r - 1)))
                      = wrap64 (n - 1)) by (simpl; exact Hw).
        specialize (IH (n - 1) _ Hn' Hr' Hl Hm Hz).
        apply wrap64_nonzero in E.
        unfold state in *. simpl in IH.
        destruct (rowset_state (rowset_state_machine r)); auto.
        intros _. apply IH. lia.
Qed.


(** *** The state machine *)

(** C3: [on_load] succeeds exactly from [ROWSET_UNLOADED] and then goes to
    [ROWSET_LOADED]; [on_close(refs)] succeeds exactly from [ROWSET_LOADED]
    and then goes to [ROWSET_UNLOADED] when [refs] is zero and to
    [ROWSET_UNLOADING] otherwise; [on_release] succeeds exactly from
    [ROWSET_UNLOADING] and then goes to [ROWSET_UNLOADED].  From every
    other state each of them returns an error and leaves the state as it
    was. *)
Theorem state_machine_transitions (m : RowsetStateMachine) (refs : Z) :
  (ok (fst (on_load m)) = RowsetState_eqb (rowset_state m) ROWSET_UNLOADED
   /\ snd (on_load m) =
      if RowsetState_eqb (rowset_state m) ROWSET_UNLOADED
      then mkMachine ROWSET_LOADED else m)
  /\ (ok (fst (on_close m refs)) = RowsetState_eqb (rowset_state m) ROWSET_LOADED
      /\ snd (on_close m refs) =
         if RowsetState_eqb (rowset_state m) ROWSET_LOADED
         then (if refs =? 0 then mkMachine ROWSET_UNLOADED else mkMachine ROWSET_UNLOADING)
         else m)
  /\ (ok (fst (on_release m)) = RowsetState_eqb (rowset_state m) ROWSET_UNLOADING
      /\ snd (on_release m) =
         if RowsetState_eqb (rowset_state m) ROWSET_UNLOADING
         then mkMachine ROWSET_UNLOADED else m).
Proof.
  destruct m as [s]. unfold on_load, on_close, on_release. simpl.
  destruct s; simpl; repeat split; destruct (refs =? 0); reflexivity.
Qed.

(** *** [close] *)

(** C8: [close()] on a rowset that is not [ROWSET_LOADED] changes nothing
    and does nothing.  On a loaded rowset it works with the mutex held:
    with no reader it calls [do_close] at once and the rowset is
    [ROWSET_UNLOADED]; with readers it leaves the resources as they are
    and the rowset is [ROWSET_UNLOADING].  A status that is not OK only
    produces a warning in the log: [close] returns nothing to its
    caller. *)
Theorem close_contract (r : Rowset) :
  (state r <> ROWSET_LOADED -> close r = (r, []))
  /\ (state r = ROWSET_LOADED -> refs_by_reader r = 0 ->
      close r = (mkRowset 0 (mkMachine ROWSET_UNLOADED) false,
                 [EvLock; EvDoClose; EvUnlock; EvVLog]))
  /\ (state r = ROWSET_LOADED -> refs_by_reader r <> 0 ->
      close r = (mkRowset (refs_by_reader r) (mkMachine ROWSET_UNLOADING) (resources_open r),
                 [EvLock; EvUnlock; EvVLog]))
  /\ mutex_after false (snd (close r)) = Some false
  /\ (forall st : Status, ok st = false -> close_report st = [EvLogWarning st]).
Proof.
  split; [exact (close_not_loaded r)|].
  split; [exact (close_loaded_idle r)|].
  split; [exact (close_loaded_busy r)|].
  split.
  - destruct (state r) eqn:Hs.
    + rewrite close_not_loaded by (rewrite Hs; discriminate). reflexivity.
    + destruct (Z.eq_dec (refs_by_reader r) 0) as [E|E].
      * rewrite (close_loaded_idle r Hs E). reflexivity.
      * rewrite (close_loaded_busy r Hs E). reflexivity.
    + rewrite close_not_loaded by (rewrite Hs; discriminate). reflexivity.
  - intros st Hst. unfold close_report. rewrite Hst. reflexivity.
Qed.

(** The three cases of [close] on concrete rowsets: unloading with three
    readers, loaded without reader, loaded with two readers. *)
Lemma close_contract_witness :
  close (mkRowset 3 (mkMachine ROWSET_UNLOADING) true)
  = (mkRowset 3 (mkMachine ROWSET_UNLOADING) true, [])
  /\ close (mkRowset 0 (mkMachine ROWSET_LOADED) true)
     = (mkRowset 0 (mkMachine ROWSET_UNLOADED) false,
        [EvLock; EvDoClose; EvUnlock; EvVLog])
  /\ close (mkRowset 2 (mkMachine ROWSET_LOADED) true)
     = (mkRowset 2 (mkMachine ROWSET_UNLOADING) true, [EvLock; EvUnlock; EvVLog]).
Proof.
  split; [|split].
  - apply (proj1 (close_contract (mkRowset 3 (mkMachine ROWSET_UNLOADING) true))).
    discriminate.
  - apply (proj1 (proj2 (close_contract (mkRowset 0 (mkMachine ROWSET_LOADED) true))));
      reflexivity.
  - apply (proj1 (proj2 (proj2 (close_contract (mkRowset 2 (mkMachine ROWSET_LOADED) true)))));
      [reflexivity | discriminate].
Defined.

(** *** The resources and the state *)

(** C2, as stated, fails: a [release()] without a reader wraps the
    counter around, and after [load(); release(); close(); acquire()] the
    rowset is [ROWSET_UNLOADING] with a reader count of zero and open
    resources. *)
Lemma resources_open_iff_needs_pairing :
  ~ (forall ops : list Op,
       let r := fst (run ops new_rowset) in
       resources_open r = true <->
       state r = ROWSET_LOADED
       \/ (state r = ROWSET_UNLOADING /\ 0 < refs_by_reader r)).
Proof.
  intro H. specialize (H [OpLoad; OpRelease; OpClose; OpAcquire]).
  vm_compute in H. destruct H as [H _].
  destruct (H eq_refl) as [E | [_ E]]; discriminate E.
Qed.

(** C2, amended: for every sequence of [load], [close], [acquire] and
    [release] on a new rowset in which every [release] is matched by an
    earlier [acquire] and fewer than 2^64 readers hold the rowset at any
    time, the resources are open if and only if the rowset is
    [ROWSET_LOADED], or [ROWSET_UNLOADING] with a reader count above zero.
    For every sequence, paired or not, [do_load] and [do_close] alternate
    (one [do_close] for each time the rowset was loaded), and each runs
    with the mutex held. *)
Theorem resources_open_iff (ops : list Op) :
  let r := fst (run ops new_rowset) in
  let tr := snd (run ops new_rowset) in
  (paired 0 ops = true ->
   (resources_open r = true <->
    state r = ROWSET_LOADED \/ (state r = ROWSET_UNLOADING /\ 0 < refs_by_reader r)))
  /\ open_after false tr = Some (resources_open r)
  /\ mutex_after false tr = Some false.
Proof.
  intros r tr.
  assert (Hc : consistent new_rowset) by reflexivity.
  destruct (run_consistent ops new_rowset Hc) as (H1 & H2 & H3).
  fold r in H1, H3. fold tr in H2, H3.
  split; [|split; [exact H3 | exact H2]].
  intro Hp.
  assert (Ht : tracked 0 new_rowset).
  { unfold tracked. simpl. repeat split; try reflexivity; try discriminate. }
  pose proof (run_tracked ops 0 new_rowset Ht Hp) as H4. fold r in H4.
  unfold consistent in H1. rewrite H1.
  destruct (state r) eqn:Hs; simpl; split.
  - discriminate.
  - intros [E | [E _]]; discriminate E.
  - intros _. left. reflexivity.
  - reflexivity.
  - intros _. right. split; [reflexivity | apply H4; reflexivity].
  - reflexivity.
Qed.

(** A paired sequence that ends unloading with one reader left: the
    resources are open. *)
Lemma resources_open_iff_witness :
  paired 0 [OpLoad; OpAcquire; OpClose; OpAcquire; OpRelease] = true
  /\ resources_open
       (fst (run [OpLoad; OpAcquire; OpClose; OpAcquire; OpRelease] new_rowset)) = true
  /\ open_after false
       (snd (run [OpLoad; OpAcquire; OpClose; OpAcquire; OpRelease] new_rowset))
     = Some true.
Proof.
  split; [reflexivity|].
  pose proof (resources_open_iff [OpLoad; OpAcquire; OpClose; OpAcquire; OpRelease]) as H.
  cbv zeta in H. destruct H as (H1 & H2 & _).
  split.
  - apply (H1 eq_refl). right. split; vm_compute; reflexivity.
  - rewrite H2. reflexivity.
Defined.

(** *** Closing and draining *)

(** C4, as stated, fails for a rowset that was never loaded: [close()] on
    it returns at once, so [do_close] does not run at all. *)
Lemma close_then_drain_needs_loaded :
  ~ (forall (ops : list Op) (r : Rowset),
       no_load ops = true ->
       matched 0 ops = true -> readers_after 0 ops = 0 ->
       existsb is_close ops = true ->
       state (fst (run ops r)) = ROWSET_UNLOADED
       /\ closes (snd (run ops r)) = 1%nat).
Proof.
  intro H.
  destruct (H [OpClose] new_rowset eq_refl eq_refl eq_refl eq_refl) as [_ E].
  vm_compute in E. discriminate E.
Qed.

(** C4, amended: take a loaded rowset without readers and any sequence of
    [acquire], [release] and [close] calls in which every [release] is
    matched by an earlier [acquire], every [acquire] is released in the
    end, and [close] is called at some point.  After the sequence the
    rowset is [ROWSET_UNLOADED], its resources are closed, and [do_close]
    ran exactly once. *)
Theorem close_then_drain (ops : list Op) (r : Rowset) :
  state r = ROWSET_LOADED -> refs_by_reader r = 0 -> resources_open r = true ->
  no_load ops = true ->
  matched 0 ops = true -> readers_after 0 ops = 0 ->
  existsb is_close ops = true ->
  state (fst (run ops r)) = ROWSET_UNLOADED
  /\ resources_open (fst (run ops r)) = false
  /\ closes (snd (run ops r)) = 1%nat.
Proof.
  intros Hs Hr Ho Hl Hm Hz Hc.
  assert (Hr' : refs_by_reader r = wrap64 0) by (rewrite Hr; reflexivity).
  pose proof (drain ops 0 r (Z.le_refl 0) Hr' Hl Hm Hz) as H.
  rewrite Hs in H. destruct (H Hc) as [H1 H2].
  assert (Hcons : consistent r).
  { unfold consistent. rewrite Ho, Hs. reflexivity. }
  destruct (run_consistent ops r Hcons) as (K & _ & _).
  unfold consistent in K. rewrite H1 in K.
  split; [exact H1 | split; [exact K | exact H2]].
Qed.

(** Two readers around a [close]: the last [release] closes the
    resources. *)
Lemma close_then_drain_witness :
  state (fst (run [OpAcquire; OpAcquire; OpRelease; OpClose; OpAcquire; OpRelease; OpRelease]
                (mkRowset 0 (mkMachine ROWSET_LOADED) true))) = ROWSET_UNLOADED
  /\ resources_open
       (fst (run [OpAcquire; OpAcquire; OpRelease; OpClose; OpAcquire; OpRelease; OpRelease]
               (mkRowset 0 (mkMachine ROWSET_LOADED) true))) = false
  /\ closes
       (snd (run [OpAcquire; OpAcquire; OpRelease; OpClose; OpAcquire; OpRelease; OpRelease]
               (mkRowset 0 (mkMachine ROWSET_LOADED) true))) = 1%nat.
Proof.
  apply (close_then_drain
           [OpAcquire; OpAcquire; OpRelease; OpClose; OpAcquire; OpRelease; OpRelease]
           (mkRowset 0 (mkMachine ROWSET_LOADED) true)); reflexivity.
Defined.

End RowsetFacts.

(* ================================================================== *)
(** ** Properties of the compaction scheduler                          *)
(* ================================================================== *)

Module SchedulerFacts.
Import Scheduler.

(** *** The registry *)

Lemma pick_from_perm (l : list CompactionCandidate) :
  forall (c b : CompactionCandidate) (r : list CompactionCandidate),
  pick_from c l = (b, r) -> Permutation (c :: l) (b :: r).
Proof.
  induction l as [|d l IH]; intros c b r H; simpl in H.
  - inversion H; subst. apply Permutation_refl.
  - destruct (score c <? score d).
    + destruct (pick_from d l) as [b' r'] eqn:E. inversion H; subst.
      apply Permutation_trans with (c :: b :: r').
      * apply perm_skip. apply IH. exact E.
      * apply perm_swap.
    + destruct (pick_from c l) as [b' r'] eqn:E. inversion H; subst.
      apply Permutation_trans with (d :: c :: l); [apply perm_swap|].
      apply Permutation_trans with (d :: b :: r'); [|apply perm_swap].
      apply perm_skip. apply IH. exact E.
Qed.

Lemma pick_candidate_perm (env : Env) (reg rest : Registry) (c : CompactionCandidate) :
  _can_schedule_next env reg = true ->
  pick_candidate reg = (c, rest) ->
  Permutation reg (c :: rest).
Proof.
  unfold _can_schedule_next, candidates_size. intros H Hp.
  destruct reg as [|d l].
  - simpl in H. rewrite andb_false_r in H. discriminate H.
  - simpl in Hp. apply pick_from_perm. exact Hp.
Qed.

(** *** The tablet *)

Lemma set_inflight_same (t : Tablet) (k : CompactionType) (v : option CompactionTask) :
  inflight (set_inflight t k v) k = v.
Proof. destruct k; reflexivity. Qed.

Lemma set_inflight_frame (t : Tablet) (k : CompactionType) (v : option CompactionTask) :
  tablet_state (set_inflight t k v) = tablet_state t
  /\ data_dir (set_inflight t k v) = data_dir t
  /\ (forall k', need_compaction (set_inflight t k v) k' = need_compaction t k')
  /\ (forall k', buildable (set_inflight t k v) k' = buildable t k')
  /\ (forall k', lock_held (set_inflight t k v) k' = lock_held t k')
  /\ (forall k', last_failure_time (set_inflight t k v) k' = last_failure_time t k')
  /\ (forall k', k' <> k -> inflight (set_inflight t k v) k' = inflight t k').
Proof.
  destruct k; simpl; repeat split; intros k'; destruct k'; try reflexivity;
    intro H; exfalso; apply H; reflexivity.
Qed.

Lemma set_inflight_undo (t : Tablet) (k : CompactionType) (v : option CompactionTask) :
  set_inflight (set_inflight t k v) k (inflight t k) = t.
Proof. destruct t, k; reflexivity. Qed.

Lemma set_inflight_undo_here (t : Tablet) (k : CompactionType) :
  set_inflight t k (inflight t k) = t.
Proof. destruct t, k; reflexivity. Qed.

Lemma set_inflight_twice (t : Tablet) (k : CompactionType) (v v' : option CompactionTask) :
  set_inflight (set_inflight t k v) k v' = set_inflight t k v'.
Proof. destruct k; reflexivity. Qed.

Lemma CompactionTask_eqb_refl (task : CompactionTask) :
  CompactionTask_eqb task task = true.
Proof.
  unfold CompactionTask_eqb. rewrite !Z.eqb_refl.
  destruct (compaction_type task); reflexivity.
Qed.

(** Giving the task its id touches no tablet but the task's own, and of
    that one only the in-flight task of the task's kind. *)
Lemma assign_task_id_spec (n : Z) (task : CompactionTask) (w : World) :
  fst (assign_task_id n task w) = set_task_id task n
  /\ candidates (snd (assign_task_id n task w)) = candidates w
  /\ (exists x : option CompactionTask,
        all_tablets (snd (assign_task_id n task w)) (task_tablet task)
        = set_inflight (all_tablets w (task_tablet task)) (compaction_type task) x)
  /\ (forall i, i <> task_tablet task ->
        all_tablets (snd (assign_task_id n task w)) i = all_tablets w i).
Proof.
  unfold assign_task_id. cbn [fst snd candidates all_tablets].
  split; [reflexivity|]. split; [reflexivity|]. split.
  - unfold update_tablet. rewrite Z.eqb_refl.
    destruct (inflight (all_tablets w (task_tablet task)) (compaction_type task))
      as [held|] eqn:E.
    + destruct (CompactionTask_eqb held task).
      * eexists. reflexivity.
      * exists (Some held). rewrite <- E. symmetry. apply set_inflight_undo_here.
    + exists None. rewrite <- E. symmetry. apply set_inflight_undo_here.
  - intros i Hi. unfold update_tablet.
    destruct (i =? task_tablet task) eqn:E; [|reflexivity].
    apply Z.eqb_eq in E. contradiction.
Qed.

(** What a refused submission leaves behind. *)
Lemma submit_task_refused (n : Z) (task : CompactionTask) (w : World) :
  fst (submit_task false n task w) = set_task_id task n
  /\ candidates (snd (submit_task false n task w))
     = update_candidates
         [mkCandidate (Some (task_tablet task)) (compaction_type task)
            (score invalid_candidate)]
         (candidates w)
  /\ all_tablets (snd (submit_task false n task w)) (task_tablet task)
     = reset_compaction (all_tablets w (task_tablet task)) (compaction_type task)
  /\ (forall i, i <> task_tablet task ->
        all_tablets (snd (submit_task false n task w)) i = all_tablets w i).
Proof.
  destruct (assign_task_id_spec n task w) as (A1 & A2 & (x & A3) & A4).
  unfold submit_task.
  destruct (assign_task_id n task w) as [task' w'].
  cbn [fst snd] in *. subst task'.
  cbn [fst snd candidates all_tablets task_tablet compaction_type set_task_id].
  split; [reflexivity|]. split; [rewrite A2; reflexivity|]. split.
  - unfold update_tablet. rewrite Z.eqb_refl, A3.
    unfold reset_compaction. apply set_inflight_twice.
  - intros i Hi. unfold update_tablet.
    destruct (i =? task_tablet task) eqn:E.
    + apply Z.eqb_eq in E. contradiction.
    + apply A4. exact Hi.
Qed.

Lemma get_compaction_build (id : TabletId) (t : Tablet) (k : CompactionType) :
  inflight t k = None -> need_compaction t k = true ->
  get_compaction id t k true =
  match buildable t k with
  | Some size => (Some (mkTask 0 id k size),
                  set_inflight t k (Some (mkTask 0 id k size)))
  | None => (None, t)
  end.
Proof. intros H1 H2. unfold get_compaction. rewrite H1, H2. reflexivity. Qed.

Lemma get_compaction_last_failure (id : TabletId) (t : Tablet) (k k' : CompactionType)
  (create : bool) :
  last_failure_time (snd (get_compaction id t k create)) k' = last_failure_time t k'.
Proof.
  unfold get_compaction.
  destruct (inflight t k); [reflexivity|].
  destruct (create && need_compaction t k); [|reflexivity].
  destruct (buildable t k); [|reflexivity].
  simpl. apply set_inflight_frame.
Qed.

(** *** [_can_do_compaction_task] *)

Lemma can_do_compaction_task_body_spec (env : Env) (t : Tablet) (task : CompactionTask) :
  can_do_compaction_task_body env t task =
  (negb (lock_held t (compaction_type task)
         || per_disk_cap_reached env t (compaction_type task)
         || within_backoff env t (compaction_type task)),
   lock_held t (compaction_type task)
   || per_disk_cap_reached env t (compaction_type task)
   || within_backoff env t (compaction_type task)).
Proof.
  unfold can_do_compaction_task_body, per_disk_cap_reached, within_backoff,
    lock_held, last_failure_time.
  destruct (compaction_type task); cbn [CompactionType_eqb]; cbv zeta.
  - destruct (base_lock_held t); [reflexivity|].
    destruct ((0 <=? base_compaction_num_threads_per_disk env)
              && (base_compaction_num_threads_per_disk env
                  <=? to_uint16 (running_base_tasks_num_for_dir env (data_dir t))));
      [reflexivity|].
    destruct (wrap_int64 (UnixMillis env - last_base_compaction_failure_time t)
              <=? wrap_int64 (min_compaction_failure_interval_sec env * 1000));
      reflexivity.
  - destruct (cumulative_lock_held t); [reflexivity|].
    destruct ((0 <=? cumulative_compaction_num_threads_per_disk env)
              && (cumulative_compaction_num_threads_per_disk env
                  <=? to_uint16 (running_cumulative_tasks_num_for_dir env (data_dir t))));
      [reflexivity|].
    destruct (wrap_int64 (UnixMillis env - last_cumu_compaction_failure_time t)
              <=? wrap_int64 (min_compaction_failure_interval_sec env * 1000));
      reflexivity.
Qed.

Lemma can_do_compaction_task_spec (env : Env) (t : Tablet) (task : CompactionTask) :
  _can_do_compaction_task env t task =
  if lock_held t (compaction_type task)
     || per_disk_cap_reached env t (compaction_type task)
     || within_backoff env t (compaction_type task)
  then (false, reset_compaction t (compaction_type task))
  else (true, t).
Proof.
  unfold _can_do_compaction_task. rewrite can_do_compaction_task_body_spec.
  destruct (lock_held t (compaction_type task)
            || per_disk_cap_reached env t (compaction_type task)
            || within_backoff env t (compaction_type task)); reflexivity.
Qed.

(** *** [_check_precondition] and [_can_do_compaction] *)

Lemma check_precondition_true (ts : Tablets) (c : CompactionCandidate) :
  _check_precondition ts c = true ->
  exists id : TabletId,
    tablet c = Some id
    /\ need_compaction (ts id) (type c) = true
    /\ tablet_state (ts id) = TABLET_RUNNING
    /\ inflight (ts id) (type c) = None.
Proof.
  unfold _check_precondition. destruct (tablet c) as [id|]; [|discriminate].
  intro H. exists id. split; [reflexivity|].
  destruct (need_compaction (ts id) (type c)) eqn:Hn; [|discriminate H].
  destruct (tablet_state (ts id)) eqn:Hs; [|discriminate H].
  simpl in H. unfold get_compaction in H.
  destruct (inflight (ts id) (type c)) eqn:Hi; [discriminate H|].
  repeat split; reflexivity.
Qed.

Lemma verdict_precondition_fails (env : Env) (ts : Tablets) (c : CompactionCandidate) :
  _check_precondition ts c = false ->
  _can_do_compaction env ts c = mkVerdict false false None ts.
Proof. intro H. unfold _can_do_compaction. rewrite H. reflexivity. Qed.

Lemma update_tablet_same (ts : Tablets) (id : TabletId) (i : TabletId) :
  update_tablet ts id (ts id) i = ts i.
Proof.
  unfold update_tablet. destruct (i =? id) eqn:E; [|reflexivity].
  apply Z.eqb_eq in E. subst. reflexivity.
Qed.

Lemma verdict_not_built (env : Env) (ts : Tablets) (c : CompactionCandidate)
  (id : TabletId) :
  _check_precondition ts c = true -> tablet c = Some id ->
  fst (get_compaction id (ts id) (type c) true) = None ->
  can_do (_can_do_compaction env ts c) = false
  /\ need_reschedule (_can_do_compaction env ts c) = true
  /\ new_task (_can_do_compaction env ts c) = None
  /\ (forall i, tablets_after (_can_do_compaction env ts c) i = ts i).
Proof.
  intros Hp Hid Hg.
  destruct (check_precondition_true ts c Hp) as (id' & Hid' & Hn & _ & Hi).
  rewrite Hid in Hid'. inversion Hid'; subst id'. clear Hid'.
  unfold _can_do_compaction. rewrite Hp, Hid. simpl.
  rewrite (get_compaction_build id (ts id) (type c) Hi Hn) in *.
  destruct (buildable (ts id) (type c)); [discriminate Hg|].
  simpl. repeat split. intro i. apply update_tablet_same.
Qed.

Lemma verdict_built (env : Env) (ts : Tablets) (c : CompactionCandidate)
  (id : TabletId) (task : CompactionTask) (t1 : Tablet) :
  _check_precondition ts c = true -> tablet c = Some id ->
  get_compaction id (ts id) (type c) true = (Some task, t1) ->
  compaction_type task = type c
  /\ t1 = set_inflight (ts id) (type c) (Some task)
  /\ can_do (_can_do_compaction env ts c) = negb (transient_failure env (ts id) task)
  /\ need_reschedule (_can_do_compaction env ts c) = transient_failure env (ts id) task
  /\ new_task (_can_do_compaction env ts c) =
     (if transient_failure env (ts id) task then None else Some task).
Proof.
  intros Hp Hid Hg.
  destruct (check_precondition_true ts c Hp) as (id' & Hid' & Hn & _ & Hi).
  rewrite Hid in Hid'. inversion Hid'; subst id'. clear Hid'.
  unfold _can_do_compaction. rewrite Hp, Hid. simpl. rewrite Hg.
  rewrite (get_compaction_build id (ts id) (type c) Hi Hn) in Hg.
  destruct (buildable (ts id) (type c)) as [size|]; [|discriminate Hg].
  inversion Hg; subst task t1. clear Hg.
  split; [reflexivity|]. split; [reflexivity|].
  unfold transient_failure.
  destruct (set_inflight_frame (ts id) (type c) (Some (mkTask 0 id (type c) size)))
    as (_ & Hd & _ & _ & Hl & Hf & _).
  rewrite Hd. cbn [input_rowsets_size compaction_type].
  destruct (reach_capacity_limit env (data_dir (ts id)) size); [simpl; auto|].
  rewrite can_do_compaction_task_spec. cbn [compaction_type].
  unfold per_disk_cap_reached, within_backoff.
  rewrite Hl, Hf, Hd. fold (per_disk_cap_reached env (ts id) (type c)).
  fold (within_backoff env (ts id) (type c)).
  cbn [orb].
  destruct (lock_held (ts id) (type c)
            || per_disk_cap_reached env (ts id) (type c)
            || within_backoff env (ts id) (type c)); simpl; auto.
Qed.

Lemma verdict_last_failure (env : Env) (ts : Tablets) (c : CompactionCandidate)
  (i : TabletId) (k : CompactionType) :
  last_failure_time (tablets_after (_can_do_compaction env ts c) i) k
  = last_failure_time (ts i) k.
Proof.
  unfold _can_do_compaction.
  destruct (_check_precondition ts c); simpl; [|reflexivity].
  destruct (tablet c) as [id|]; [|reflexivity].
  pose proof (get_compaction_last_failure id (ts id) (type c) k true) as G.
  destruct (get_compaction id (ts id) (type c) true) as [[task|] t1]; simpl in G.
  - destruct (reach_capacity_limit env (data_dir t1) (input_rowsets_size task)).
    + simpl. unfold update_tablet. destruct (i =? id) eqn:E; [|reflexivity].
      apply Z.eqb_eq in E. subst. exact G.
    + rewrite can_do_compaction_task_spec.
      destruct (lock_held t1 (compaction_type task)
                || per_disk_cap_reached env t1 (compaction_type task)
                || within_backoff env t1 (compaction_type task)); simpl;
        unfold update_tablet; destruct (i =? id) eqn:E; try reflexivity;
        apply Z.eqb_eq in E; subst; try exact G.
      unfold reset_compaction.
      destruct (set_inflight_frame t1 (compaction_type task) None)
        as (_ & _ & _ & _ & _ & Hf & _).
      rewrite Hf. exact G.
  - simpl. unfold update_tablet. destruct (i =? id) eqn:E; [|reflexivity].
    apply Z.eqb_eq in E. subst. exact G.
Qed.

(** *** One iteration of the selection loop *)

Lemma loop_body_stop (env : Env) (s : LoopState) :
  _can_schedule_next env (registry s) = false -> loop_body env s = (s, false).
Proof. intro H. unfold loop_body. rewrite H. reflexivity. Qed.

Lemma loop_body_invalid (env : Env) (s : LoopState) (c : CompactionCandidate)
  (rest : Registry) :
  _can_schedule_next env (registry s) = true ->
  pick_candidate (registry s) = (c, rest) ->
  is_valid c = false ->
  loop_body env s =
  (mkLoop rest (tablets s) (tmp_candidates s) (found s) (compaction_task s), false).
Proof. intros H Hp Hv. unfold loop_body. rewrite H, Hp. simpl. rewrite Hv. reflexivity. Qed.

Lemma loop_body_valid (env : Env) (s : LoopState) (c : CompactionCandidate)
  (rest : Registry) :
  _can_schedule_next env (registry s) = true ->
  pick_candidate (registry s) = (c, rest) ->
  is_valid c = true ->
  loop_body env s =
  (mkLoop rest
     (tablets_after (_can_do_compaction env (tablets s) c))
     (if need_reschedule (_can_do_compaction env (tablets s) c)
      then tmp_candidates s ++ [c] else tmp_candidates s)
     (can_do (_can_do_compaction env (tablets s) c))
     (match new_task (_can_do_compaction env (tablets s) c) with
      | Some t => Some t
      | None => compaction_task s
      end),
   negb (can_do (_can_do_compaction env (tablets s) c))).
Proof. intros H Hp Hv. unfold loop_body. rewrite H, Hp. simpl. rewrite Hv. reflexivity. Qed.

(** An iteration either stops at once, or takes one candidate out of the
    registry and appends it to [tmp_candidates] or not. *)
Lemma loop_body_shape (env : Env) (s s' : LoopState) (b : bool) :
  loop_body env s = (s', b) ->
  (s' = s /\ b = false)
  \/ exists c : CompactionCandidate,
       Permutation (registry s) (c :: registry s')
       /\ (tmp_candidates s' = tmp_candidates s
           \/ tmp_candidates s' = tmp_candidates s ++ [c]).
Proof.
  intro H.
  destruct (_can_schedule_next env (registry s)) eqn:Hc.
  - right. destruct (pick_candidate (registry s)) as [c rest] eqn:Hp.
    exists c. pose proof (pick_candidate_perm env _ _ _ Hc Hp) as HP.
    destruct (is_valid c) eqn:Hv.
    + rewrite (loop_body_valid env s c rest Hc Hp Hv) in H.
      inversion H; subst; clear H. simpl. split; [exact HP|].
      destruct (need_reschedule (_can_do_compaction env (tablets s) c)); auto.
    + rewrite (loop_body_invalid env s c rest Hc Hp Hv) in H.
      inversion H; subst; clear H. simpl. auto.
  - left. rewrite (loop_body_stop env s Hc) in H. inversion H; auto.
Qed.

Lemma loop_body_shrinks (env : Env) (s s' : LoopState) :
  loop_body env s = (s', true) ->
  S (List.length (registry s')) = List.length (registry s).
Proof.
  intro H. destruct (loop_body_shape env s s' true H) as [[_ E] | [c [HP _]]].
  - discriminate E.
  - apply Permutation_length in HP. simpl in HP. symmetry. exact HP.
Qed.


Lemma loop_body_keeps (env : Env) (s s' : LoopState) (b : bool) :
  loop_body env s = (s', b) ->
  (exists l, tmp_candidates s' = tmp_candidates s ++ l)
  /\ incl (at_hand s') (at_hand s)
  /\ (NoDup (at_hand s) -> NoDup (at_hand s')).
Proof.
  intro H. unfold at_hand.
  destruct (loop_body_shape env s s' b H) as [[E _] | [c [HP Ht]]].
  - subst s'. split; [exists []; symmetry; apply app_nil_r|].
    split; [apply incl_refl | auto].
  - assert (HQ : Permutation (tmp_candidates s ++ registry s)
                   (tmp_candidates s ++ c :: registry s'))
      by (apply Permutation_app_head; exact HP).
    destruct Ht as [Ht | Ht]; rewrite Ht.
    + split; [exists []; symmetry; apply app_nil_r|]. split.
      * intros x Hx. apply (Permutation_in x (Permutation_sym HQ)).
        apply in_app_or in Hx. apply in_or_app.
        destruct Hx as [Hx|Hx]; [left; exact Hx | right; right; exact Hx].
      * intro Hn. apply (Permutation_NoDup HQ) in Hn.
        apply NoDup_remove_1 in Hn. exact Hn.
    + rewrite <- app_assoc. simpl.
      split; [exists [c]; reflexivity|]. split.
      * intros x Hx. apply (Permutation_in x (Permutation_sym HQ)). exact Hx.
      * intro Hn. apply (Permutation_NoDup HQ). exact Hn.
Qed.

Lemma loop_body_last_failure (env : Env) (s s' : LoopState) (b : bool) :
  loop_body env s = (s', b) ->
  forall i k, last_failure_time (tablets s' i) k = last_failure_time (tablets s i) k.
Proof.
  intros H i k.
  destruct (_can_schedule_next env (registry s)) eqn:Hc.
  - destruct (pick_candidate (registry s)) as [c rest] eqn:Hp.
    destruct (is_valid c) eqn:Hv.
    + rewrite (loop_body_valid env s c rest Hc Hp Hv) in H.
      inversion H; subst; clear H. simpl. apply verdict_last_failure.
    + rewrite (loop_body_invalid env s c rest Hc Hp Hv) in H.
      inversion H; subst; clear H. reflexivity.
  - rewrite (loop_body_stop env s Hc) in H. inversion H; subst. reflexivity.
Qed.

(** *** The whole loop *)

Lemma select_loop_step (fuel : nat) (env : Env) (s : LoopState) :
  select_loop (S fuel) env s =
  if snd (loop_body env s)
  then select_loop fuel env (fst (loop_body env s))
  else Some (fst (loop_body env s)).
Proof. simpl. destruct (loop_body env s) as [s' b]. reflexivity. Qed.

(** The loop returns: one iteration more than the registry has
    candidates is enough. *)
Lemma select_loop_returns (env : Env) (fuel : nat) : forall s : LoopState,
  (List.length (registry s) < fuel)%nat ->
  exists sf : LoopState, select_loop fuel env s = Some sf.
Proof.
  induction fuel as [|fuel IH]; intros s Hlt.
  - inversion Hlt.
  - rewrite select_loop_step.
    destruct (loop_body env s) as [s' b] eqn:Hb. simpl.
    destruct b.
    + apply IH. apply loop_body_shrinks in Hb. lia.
    + exists s'. reflexivity.
Qed.

Lemma round_end_returns (env : Env) (w : World) :
  exists sf : LoopState, round_end env w = Some sf.
Proof. unfold round_end. apply select_loop_returns. simpl. lia. Qed.

Lemma select_loop_keeps (env : Env) (fuel : nat) : forall s sf : LoopState,
  select_loop fuel env s = Some sf ->
  (exists l, tmp_candidates sf = tmp_candidates s ++ l)
  /\ incl (at_hand sf) (at_hand s)
  /\ (forall i k, last_failure_time (tablets sf i) k = last_failure_time (tablets s i) k).
Proof.
  induction fuel as [|fuel IH]; intros s sf H.
  - discriminate H.
  - rewrite select_loop_step in H.
    destruct (loop_body env s) as [s' b] eqn:Hb. simpl in H.
    destruct (loop_body_keeps env s s' b Hb) as ([l Hl] & Hi & _).
    pose proof (loop_body_last_failure env s s' b Hb) as Hf.
    destruct b.
    + destruct (IH s' sf H) as ([l' Hl'] & Hi' & Hf').
      split; [|split].
      * exists (l ++ l'). rewrite Hl', Hl. symmetry. apply app_assoc.
      * intros x Hx. apply Hi. apply Hi'. exact Hx.
      * intros i k. rewrite Hf'. apply Hf.
    + inversion H; subst sf. split; [exists l; exact Hl|]. split; assumption.
Qed.

(** A state that the loop passes through ends where the loop ends. *)
Lemma reaches_same_end (env : Env) (s s1 : LoopState) :
  reaches env s s1 ->
  forall (fuel : nat) (sf : LoopState),
  select_loop fuel env s = Some sf ->
  exists fuel' : nat, select_loop fuel' env s1 = Some sf.
Proof.
  induction 1 as [s | s s1 s2 Hb _ IH]; intros fuel sf Hsel.
  - exists fuel. exact Hsel.
  - destruct fuel as [|fuel]; [discriminate Hsel|].
    rewrite select_loop_step, Hb in Hsel. simpl in Hsel.
    apply (IH fuel sf Hsel).
Qed.

Lemma reaches_nodup (env : Env) (s s1 : LoopState) :
  reaches env s s1 -> NoDup (at_hand s) -> NoDup (at_hand s1).
Proof.
  induction 1 as [s | s s1 s2 Hb _ IH]; intro Hn.
  - exact Hn.
  - apply IH. apply (loop_body_keeps env s s1 true Hb). exact Hn.
Qed.

(** What [_try_get_next_compaction_task] returns, from the end of the
    loop. *)
Lemma try_get_next_from_end (env : Env) (w : World) (sf : LoopState) :
  round_end env w = Some sf ->
  _try_get_next_compaction_task env w =
  Some (if found sf then compaction_task sf else None,
        mkWorld (insert_candidates (tmp_candidates sf) (registry sf)) (tablets sf)).
Proof. intro H. unfold _try_get_next_compaction_task. rewrite H. reflexivity. Qed.

(** A candidate appended to the scratch list in an iteration is in the
    registry after the round. *)
Lemma appended_is_reinserted (env : Env) (w : World) (s : LoopState)
  (c : CompactionCandidate) :
  reaches env (loop_start w) s ->
  In c (tmp_candidates (fst (loop_body env s))) ->
  exists (task : option CompactionTask) (w' : World),
    _try_get_next_compaction_task env w = Some (task, w') /\ In c (candidates w').
Proof.
  intros Hr Hin.
  destruct (round_end_returns env w) as [sf Hsf].
  rewrite (try_get_next_from_end env w sf Hsf).
  eexists. eexists. split; [reflexivity|]. simpl.
  unfold insert_candidates. apply in_or_app. right.
  destruct (reaches_same_end env _ _ Hr _ _ Hsf) as [fuel Hf].
  destruct fuel as [|fuel]; [discriminate Hf|].
  rewrite select_loop_step in Hf.
  destruct (snd (loop_body env s)).
  - destruct (select_loop_keeps env fuel _ _ Hf) as ([l Hl] & _ & _).
    rewrite Hl. apply in_or_app. left. exact Hin.
  - inversion Hf; subst sf. exact Hin.
Qed.

(** A candidate that an iteration took out of a registry without
    duplicates, and did not append to the scratch list, is not in the
    registry after the round. *)
Lemma dropped_is_gone (env : Env) (w : World) (s : LoopState)
  (c : CompactionCandidate) (rest : Registry) :
  NoDup (candidates w) ->
  reaches env (loop_start w) s ->
  _can_schedule_next env (registry s) = true ->
  pick_candidate (registry s) = (c, rest) ->
  tmp_candidates (fst (loop_body env s)) = tmp_candidates s ->
  exists (task : option CompactionTask) (w' : World),
    _try_get_next_compaction_task env w = Some (task, w') /\ ~ In c (candidates w').
Proof.
  intros Hn Hr Hc Hp Ht.
  destruct (round_end_returns env w) as [sf Hsf].
  rewrite (try_get_next_from_end env w sf Hsf).
  eexists. eexists. split; [reflexivity|]. simpl.
  assert (Hn0 : NoDup (at_hand (loop_start w))) by exact Hn.
  pose proof (reaches_nodup env _ _ Hr Hn0) as Hns.
  pose proof (pick_candidate_perm env _ _ _ Hc Hp) as HP.
  assert (Hrest : registry (fst (loop_body env s)) = rest).
  { destruct (is_valid c) eqn:Hv.
    - rewrite (loop_body_valid env s c rest Hc Hp Hv). reflexivity.
    - rewrite (loop_body_invalid env s c rest Hc Hp Hv). reflexivity. }
  assert (Hout : ~ In c (at_hand (fst (loop_body env s)))).
  { unfold at_hand in *. rewrite Ht, Hrest.
    assert (HQ : Permutation (tmp_candidates s ++ registry s)
                   (tmp_candidates s ++ c :: rest))
      by (apply Permutation_app_head; exact HP).
    apply (Permutation_NoDup HQ) in Hns.
    apply NoDup_remove_2 in Hns. exact Hns. }
  intro Hin. apply Hout.
  destruct (reaches_same_end env _ _ Hr _ _ Hsf) as [fuel Hf].
  destruct fuel as [|fuel]; [discriminate Hf|].
  rewrite select_loop_step in Hf.
  assert (Hin' : In c (at_hand sf)).
  { unfold at_hand. unfold insert_candidates in Hin.
    apply in_app_or in Hin. apply in_or_app. tauto. }
  destruct (snd (loop_body env s)).
  - destruct (select_loop_keeps env fuel _ _ Hf) as (_ & Hi & _).
    apply Hi. exact Hin'.
  - inversion Hf; subst sf. exact Hin'.
Qed.

(** *** Candidates whose task cannot be built *)

(** C1, as stated, fails: tablet 2 passes the precondition and cannot
    build its task, and its candidate is appended to the scratch list
    instead of being dropped. *)
Lemma unbuilt_candidate_is_not_dropped :
  ~ (forall (env : Env) (w : World) (s : LoopState) (c : CompactionCandidate)
            (rest : Registry) (id : TabletId),
       reaches env (loop_start w) s ->
       _can_schedule_next env (registry s) = true ->
       pick_candidate (registry s) = (c, rest) ->
       tablet c = Some id ->
       _check_precondition (tablets s) c = true ->
       fst (get_compaction id (tablets s id) (type c) true) = None ->
       tmp_candidates (fst (loop_body env s)) = tmp_candidates s
       /\ forall (task : option CompactionTask) (w' : World),
            _try_get_next_compaction_task env w = Some (task, w') ->
            ~ In c (candidates w')).
Proof.
  intro H.
  destruct (H ex_env (ex_world [ex_candidate 2 8]) (loop_start (ex_world [ex_candidate 2 8]))
              (ex_candidate 2 8) [] 2 (reaches_here _ _)
              eq_refl eq_refl eq_refl eq_refl eq_refl) as [E _].
  vm_compute in E. discriminate E.
Qed.

(** C1, amended: a candidate taken from the registry during selection
    that passes the precondition check but whose tablet builds no task
    ([get_compaction(kind, true)] returns none) is kept for the next
    round: [need_reschedule] stays true, the candidate is appended to the
    scratch list, the loop goes on with the tablets as they were, and the
    candidate is in the registry when the round is over. *)
Theorem unbuilt_candidate_requeued (env : Env) (w : World) (s : LoopState)
  (c : CompactionCandidate) (rest : Registry) (id : TabletId) :
  reaches env (loop_start w) s ->
  _can_schedule_next env (registry s) = true ->
  pick_candidate (registry s) = (c, rest) ->
  tablet c = Some id ->
  _check_precondition (tablets s) c = true ->
  fst (get_compaction id (tablets s id) (type c) true) = None ->
  need_reschedule (_can_do_compaction env (tablets s) c) = true
  /\ tmp_candidates (fst (loop_body env s)) = tmp_candidates s ++ [c]
  /\ found (fst (loop_body env s)) = false
  /\ snd (loop_body env s) = true
  /\ (forall i, tablets (fst (loop_body env s)) i = tablets s i)
  /\ exists (task : option CompactionTask) (w' : World),
       _try_get_next_compaction_task env w = Some (task, w') /\ In c (candidates w').
Proof.
  intros Hr Hc Hp Hid Hpre Hg.
  destruct (verdict_not_built env (tablets s) c id Hpre Hid Hg) as (V1 & V2 & V3 & V4).
  assert (Hv : is_valid c = true) by (unfold is_valid; rewrite Hid; reflexivity).
  assert (Ht : tmp_candidates (fst (loop_body env s)) = tmp_candidates s ++ [c]).
  { rewrite (loop_body_valid env s c rest Hc Hp Hv). simpl. rewrite V2. reflexivity. }
  split; [exact V2|]. split; [exact Ht|].
  split; [|split; [|split]].
  - rewrite (loop_body_valid env s c rest Hc Hp Hv). simpl. exact V1.
  - rewrite (loop_body_valid env s c rest Hc Hp Hv). simpl. rewrite V1. reflexivity.
  - intro i. rewrite (loop_body_valid env s c rest Hc Hp Hv). simpl. apply V4.
  - apply (appended_is_reinserted env w s c Hr). rewrite Ht.
    apply in_or_app. right. left. reflexivity.
Qed.

(** Tablet 2 cannot build its task: its candidate is kept. *)
Lemma unbuilt_candidate_requeued_witness :
  tmp_candidates
    (fst (loop_body ex_env (loop_start (ex_world [ex_candidate 2 8; ex_candidate 1 5]))))
  = [ex_candidate 2 8]
  /\ exists (task : option CompactionTask) (w' : World),
       _try_get_next_compaction_task ex_env (ex_world [ex_candidate 2 8; ex_candidate 1 5])
       = Some (task, w')
       /\ In (ex_candidate 2 8) (candidates w').
Proof.
  pose proof (unbuilt_candidate_requeued ex_env
                (ex_world [ex_candidate 2 8; ex_candidate 1 5])
                (loop_start (ex_world [ex_candidate 2 8; ex_candidate 1 5]))
                (ex_candidate 2 8) [ex_candidate 1 5] 2
                (reaches_here _ _) eq_refl eq_refl eq_refl eq_refl eq_refl)
    as (_ & H2 & _ & _ & _ & H6).
  split; [exact H2 | exact H6].
Defined.

(** *** Dropping and keeping *)

(** C5: take any iteration of the selection loop of a round and the
    candidate it takes from the registry.  If the candidate fails the
    precondition check (null tablet, no need of compaction, tablet not
    running, or a task of that kind in flight), it is marked as not to be
    rescheduled, the iteration takes it out of the registry and leaves the
    scratch list as it was, and (the registry holding no candidate twice)
    the candidate is not in the registry after the round.  If it passes
    the precondition, its tablet builds a task, and a transient check
    fails (capacity limit, the tablet's lock, the per-disk maximum, or the
    backoff window), the iteration appends it to the scratch list and
    goes on, and the candidate is in the registry after the round.  The
    round returns, and the registry after it is the registry the loop left
    with the whole scratch list inserted by one [insert_candidates]. *)
Theorem selection_drops_or_requeues (env : Env) (w : World) (s : LoopState)
  (c : CompactionCandidate) (rest : Registry) :
  reaches env (loop_start w) s ->
  _can_schedule_next env (registry s) = true ->
  pick_candidate (registry s) = (c, rest) ->
  (_check_precondition (tablets s) c = false ->
   need_reschedule (_can_do_compaction env (tablets s) c) = false
   /\ tmp_candidates (fst (loop_body env s)) = tmp_candidates s
   /\ registry (fst (loop_body env s)) = rest
   /\ (NoDup (candidates w) ->
       exists (task : option CompactionTask) (w' : World),
         _try_get_next_compaction_task env w = Some (task, w')
         /\ ~ In c (candidates w')))
  /\ (forall (id : TabletId) (task0 : CompactionTask),
        tablet c = Some id ->
        _check_precondition (tablets s) c = true ->
        fst (get_compaction id (tablets s id) (type c) true) = Some task0 ->
        transient_failure env (tablets s id) task0 = true ->
        need_reschedule (_can_do_compaction env (tablets s) c) = true
        /\ tmp_candidates (fst (loop_body env s)) = tmp_candidates s ++ [c]
        /\ snd (loop_body env s) = true
        /\ exists (task : option CompactionTask) (w' : World),
             _try_get_next_compaction_task env w = Some (task, w') /\ In c (candidates w'))
  /\ exists sf : LoopState,
       round_end env w = Some sf
       /\ _try_get_next_compaction_task env w =
          Some (if found sf then compaction_task sf else None,
                mkWorld (insert_candidates (tmp_candidates sf) (registry sf)) (tablets sf)).
Proof.
  intros Hr Hc Hp. split; [|split].
  - intro Hpre.
    pose proof (verdict_precondition_fails env (tablets s) c Hpre) as V.
    assert (Ht : tmp_candidates (fst (loop_body env s)) = tmp_candidates s).
    { destruct (is_valid c) eqn:Hv.
      - rewrite (loop_body_valid env s c rest Hc Hp Hv). simpl. rewrite V. reflexivity.
      - rewrite (loop_body_invalid env s c rest Hc Hp Hv). reflexivity. }
    split; [rewrite V; reflexivity|]. split; [exact Ht|]. split.
    + destruct (is_valid c) eqn:Hv.
      * rewrite (loop_body_valid env s c rest Hc Hp Hv). reflexivity.
      * rewrite (loop_body_invalid env s c rest Hc Hp Hv). reflexivity.
    + intro Hn. apply (dropped_is_gone env w s c rest Hn Hr Hc Hp Ht).
  - intros id task0 Hid Hpre Hg Htr.
    assert (Hv : is_valid c = true) by (unfold is_valid; rewrite Hid; reflexivity).
    assert (Hg' : get_compaction id (tablets s id) (type c) true
                  = (Some task0, snd (get_compaction id (tablets s id) (type c) true))).
    { rewrite <- Hg. apply surjective_pairing. }
    destruct (verdict_built env (tablets s) c id task0 _ Hpre Hid Hg')
      as (_ & _ & V1 & V2 & _).
    rewrite Htr in V1, V2.
    assert (Ht : tmp_candidates (fst (loop_body env s)) = tmp_candidates s ++ [c]).
    { rewrite (loop_body_valid env s c rest Hc Hp Hv). simpl. rewrite V2. reflexivity. }
    split; [exact V2|]. split; [exact Ht|]. split.
    + rewrite (loop_body_valid env s c rest Hc Hp Hv). simpl. rewrite V1. reflexivity.
    + apply (appended_is_reinserted env w s c Hr). rewrite Ht.
      apply in_or_app. right. left. reflexivity.
  - destruct (round_end_returns env w) as [sf Hsf].
    exists sf. split; [exact Hsf | apply try_get_next_from_end; exact Hsf].
Qed.

(** Tablet 3 is not running and its candidate is gone after the round;
    the lock of tablet 4 is held and its candidate is back in the
    registry. *)
Lemma selection_drops_or_requeues_witness :
  (exists (task : option CompactionTask) (w' : World),
     _try_get_next_compaction_task ex_env
       (ex_world [ex_candidate 3 9; ex_candidate 4 7; ex_candidate 1 5]) = Some (task, w')
     /\ ~ In (ex_candidate 3 9) (candidates w'))
  /\ (exists (task : option CompactionTask) (w' : World),
        _try_get_next_compaction_task ex_env
          (ex_world [ex_candidate 4 7; ex_candidate 1 5]) = Some (task, w')
        /\ In (ex_candidate 4 7) (candidates w')).
Proof.
  split.
  - assert (Hn : NoDup [ex_candidate 3 9; ex_candidate 4 7; ex_candidate 1 5]).
    { repeat constructor; simpl; intuition discriminate. }
    destruct (selection_drops_or_requeues ex_env
                (ex_world [ex_candidate 3 9; ex_candidate 4 7; ex_candidate 1 5])
                (loop_start (ex_world [ex_candidate 3 9; ex_candidate 4 7; ex_candidate 1 5]))
                (ex_candidate 3 9) [ex_candidate 4 7; ex_candidate 1 5]
                (reaches_here _ _) eq_refl eq_refl) as (H1 & _ & _).
    destruct (H1 eq_refl) as (_ & _ & _ & H). exact (H Hn).
  - destruct (selection_drops_or_requeues ex_env
                (ex_world [ex_candidate 4 7; ex_candidate 1 5])
                (loop_start (ex_world [ex_candidate 4 7; ex_candidate 1 5]))
                (ex_candidate 4 7) [ex_candidate 1 5]
                (reaches_here _ _) eq_refl eq_refl) as (_ & H2 & _).
    destruct (H2 4 (mkTask 0 4 CUMULATIVE_COMPACTION 10) eq_refl eq_refl eq_refl eq_refl)
      as (_ & _ & _ & H). exact H.
Defined.

(** *** The backoff window *)

(** What the backoff test of [_can_do_compaction_task] decides, once the
    other checks are passed: the verdict is the outcome of the comparison
    as the machine makes it. *)
Lemma backoff_decides (env : Env) (ts : Tablets) (c : CompactionCandidate)
  (id : TabletId) (task : CompactionTask) :
  tablet c = Some id ->
  _check_precondition ts c = true ->
  fst (get_compaction id (ts id) (type c) true) = Some task ->
  reach_capacity_limit env (data_dir (ts id)) (input_rowsets_size task) = false ->
  lock_held (ts id) (type c) = false ->
  per_disk_cap_reached env (ts id) (type c) = false ->
  can_do (_can_do_compaction env ts c) = negb (within_backoff env (ts id) (type c))
  /\ need_reschedule (_can_do_compaction env ts c) = within_backoff env (ts id) (type c).
Proof.
  intros Hid Hpre Hg Hcap Hlock Hdisk.
  assert (Hg' : get_compaction id (ts id) (type c) true
                = (Some task, snd (get_compaction id (ts id) (type c) true))).
  { rewrite <- Hg. apply surjective_pairing. }
  destruct (verdict_built env ts c id task _ Hpre Hid Hg') as (Hk & _ & V1 & V2 & _).
  unfold transient_failure in V1, V2.
  rewrite Hk, Hcap, Hlock, Hdisk in V1, V2.
  cbn [orb] in V1, V2. split; assumption.
Qed.

Lemma wrap_int64_small (z : Z) : in_int64 z -> wrap_int64 z = z.
Proof.
  unfold in_int64, wrap_int64. intro H.
  rewrite Z.mod_small; lia.
Qed.

(** C7, as stated, fails: the difference [now_ms - last_failure_ms] is an
    [int64_t].  With the clock at 1000000 ms and a last failure time of
    -2^63 the difference wraps around to a negative number, and the
    candidate, whose last failure is further back than the interval, is
    not admitted. *)
Lemma backoff_window_overflows :
  ~ (forall (env : Env) (ts : Tablets) (c : CompactionCandidate)
            (id : TabletId) (task : CompactionTask),
       tablet c = Some id ->
       _check_precondition ts c = true ->
       fst (get_compaction id (ts id) (type c) true) = Some task ->
       reach_capacity_limit env (data_dir (ts id)) (input_rowsets_size task) = false ->
       lock_held (ts id) (type c) = false ->
       per_disk_cap_reached env (ts id) (type c) = false ->
       (can_do (_can_do_compaction env ts c) = true <->
        min_compaction_failure_interval_sec env * 1000
        < UnixMillis env - last_failure_time (ts id) (type c))).
Proof.
  intro H.
  pose (ts := fun _ : TabletId => ex_ready (-9223372036854775808)).
  assert (E : can_do (_can_do_compaction ex_env ts (ex_candidate 1 5)) = true).
  { apply (H ex_env ts (ex_candidate 1 5) 1 (mkTask 0 1 CUMULATIVE_COMPACTION 10)
             eq_refl eq_refl eq_refl eq_refl eq_refl eq_refl).
    vm_compute. reflexivity. }
  vm_compute in E. discriminate E.
Qed.

(** C7, amended: take a candidate that passes the precondition, whose
    tablet builds a task, whose data directory has room, whose lock is
    free and whose per-disk maximum is not reached, and let the difference
    [now_ms - last_failure_ms] and the product
    [min_compaction_failure_interval_sec * 1000] be representable as
    [int64_t].  Then the candidate is selected exactly when the last
    failure of its kind is further back than the minimum failure interval;
    inside the interval it is kept for the next round. *)
Theorem backoff_window (env : Env) (ts : Tablets) (c : CompactionCandidate)
  (id : TabletId) (task : CompactionTask) :
  tablet c = Some id ->
  _check_precondition ts c = true ->
  fst (get_compaction id (ts id) (type c) true) = Some task ->
  reach_capacity_limit env (data_dir (ts id)) (input_rowsets_size task) = false ->
  lock_held (ts id) (type c) = false ->
  per_disk_cap_reached env (ts id) (type c) = false ->
  in_int64 (UnixMillis env - last_failure_time (ts id) (type c)) ->
  in_int64 (min_compaction_failure_interval_sec env * 1000) ->
  (can_do (_can_do_compaction env ts c) = true <->
   min_compaction_failure_interval_sec env * 1000
   < UnixMillis env - last_failure_time (ts id) (type c))
  /\ (UnixMillis env - last_failure_time (ts id) (type c)
      <= min_compaction_failure_interval_sec env * 1000 ->
      can_do (_can_do_compaction env ts c) = false
      /\ need_reschedule (_can_do_compaction env ts c) = true).
Proof.
  intros Hid Hpre Hg Hcap Hlock Hdisk Rd Rp.
  destruct (backoff_decides env ts c id task Hid Hpre Hg Hcap Hlock Hdisk) as [V1 V2].
  rewrite V1, V2. unfold within_backoff.
  rewrite (wrap_int64_small _ Rd), (wrap_int64_small _ Rp).
  destruct (UnixMillis env - last_failure_time (ts id) (type c)
            <=? min_compaction_failure_interval_sec env * 1000) eqn:E.
  - apply Z.leb_le in E. simpl. split; [split; [discriminate | lia] | auto].
  - apply Z.leb_gt in E. simpl. split; [split; [intros _; exact E | reflexivity] | lia].
Qed.

(** Tablet 5 is inside its backoff window, tablet 1 is past it. *)
Lemma backoff_window_witness :
  (can_do (_can_do_compaction ex_env ex_tablets (ex_candidate 5 6)) = false
   /\ need_reschedule (_can_do_compaction ex_env ex_tablets (ex_candidate 5 6)) = true)
  /\ can_do (_can_do_compaction ex_env ex_tablets (ex_candidate 1 5)) = true.
Proof.
  assert (R : forall z : Z, (-9223372036854775808 <=? z) && (z <? 9223372036854775808) = true ->
                            in_int64 z).
  { intros z Hz. apply andb_true_iff in Hz. destruct Hz as [Hl Hu].
    apply Z.leb_le in Hl. apply Z.ltb_lt in Hu.
    unfold in_int64. change (2 ^ 63) with 9223372036854775808. lia. }
  split.
  - refine (proj2 (backoff_window ex_env ex_tablets (ex_candidate 5 6) 5
                     (mkTask 0 5 CUMULATIVE_COMPACTION 10)
                     eq_refl eq_refl eq_refl eq_refl eq_refl eq_refl _ _) _).
    + apply R. reflexivity.
    + apply R. reflexivity.
    + vm_compute. discriminate.
  - refine (proj2 (proj1 (backoff_window ex_env ex_tablets (ex_candidate 1 5) 1
                            (mkTask 0 1 CUMULATIVE_COMPACTION 10)
                            eq_refl eq_refl eq_refl eq_refl eq_refl eq_refl _ _)) _).
    + apply R. reflexivity.
    + apply R. reflexivity.
    + vm_compute. reflexivity.
Defined.

(** *** The in-flight marker *)

(** C9: [_can_do_compaction_task] returns false exactly when the lock of
    the tablet is taken, the per-disk maximum is reached or the tablet is
    in its backoff window; then the tablet it leaves is the tablet with
    the in-flight marker of the task's kind reset, and nothing else
    changed.  When it returns true the tablet, marker included, is as it
    was.  So when the task had just been built on a tablet without a
    marker of that kind and the function returns false, the tablet is
    again what it was before the task was built. *)
Theorem can_do_compaction_task_resets (env : Env) (t : Tablet) (task : CompactionTask) :
  (fst (_can_do_compaction_task env t task) = false <->
   lock_held t (compaction_type task) = true
   \/ per_disk_cap_reached env t (compaction_type task) = true
   \/ within_backoff env t (compaction_type task) = true)
  /\ (fst (_can_do_compaction_task env t task) = false ->
      snd (_can_do_compaction_task env t task)
      = reset_compaction t (compaction_type task)
      /\ inflight (snd (_can_do_compaction_task env t task)) (compaction_type task) = None)
  /\ (fst (_can_do_compaction_task env t task) = true ->
      snd (_can_do_compaction_task env t task) = t)
  /\ (forall (id : TabletId) (t0 : Tablet),
        inflight t0 (compaction_type task) = None ->
        get_compaction id t0 (compaction_type task) true = (Some task, t) ->
        fst (_can_do_compaction_task env t task) = false ->
        snd (_can_do_compaction_task env t task) = t0).
Proof.
  pose proof (can_do_compaction_task_spec env t task) as S.
  destruct (lock_held t (compaction_type task)
            || per_disk_cap_reached env t (compaction_type task)
            || within_backoff env t (compaction_type task)) eqn:E;
    rewrite S; simpl.
  - split; [|split; [|split]].
    + split; [intros _|reflexivity].
      apply orb_prop in E. destruct E as [E|E]; [|tauto].
      apply orb_prop in E. tauto.
    + intros _. split; [reflexivity | apply set_inflight_same].
    + intro H. discriminate H.
    + intros id t0 Hi Hg _. unfold get_compaction in Hg. rewrite Hi in Hg.
      destruct (true && need_compaction t0 (compaction_type task)); [|discriminate Hg].
      destruct (buildable t0 (compaction_type task)); [|discriminate Hg].
      inversion Hg as [[Ht Hs]]. unfold reset_compaction.
      rewrite <- Hi. rewrite Ht. apply set_inflight_undo.
  - split; [|split; [|split]].
    + split; [intro H; discriminate H|].
      apply orb_false_elim in E. destruct E as [E E3].
      apply orb_false_elim in E. destruct E as [E1 E2].
      rewrite E1, E2, E3. intros [H|[H|H]]; discriminate H.
    + intro H. discriminate H.
    + reflexivity.
    + intros id t0 _ _ H. discriminate H.
Qed.

(** The lock of tablet 4 is held: after building the task and the failed
    check the tablet is what it was. *)
Lemma can_do_compaction_task_resets_witness :
  snd (_can_do_compaction_task ex_env
         (snd (get_compaction 4 (ex_tablets 4) CUMULATIVE_COMPACTION true))
         (mkTask 0 4 CUMULATIVE_COMPACTION 10))
  = ex_tablets 4.
Proof.
  apply (proj2 (proj2 (proj2
           (can_do_compaction_task_resets ex_env
              (snd (get_compaction 4 (ex_tablets 4) CUMULATIVE_COMPACTION true))
              (mkTask 0 4 CUMULATIVE_COMPACTION 10)))) 4 (ex_tablets 4));
    reflexivity.
Defined.

(** *** Submission failure *)

(** C6: when a round selects a task and the pool refuses it, the round
    ends with the in-flight marker of the task's kind reset on the task's
    tablet, with a candidate for that tablet and kind in the registry, and
    with every last-failure time as it was before the round. *)
Theorem submission_failure_undone (env : Env) (next_task_id : Z) (w w1 : World)
  (task : CompactionTask) :
  _try_get_next_compaction_task env w = Some (Some task, w1) ->
  exists w2 : World,
    schedule_round env false next_task_id w = Some w2
    /\ w2 = snd (submit_task false next_task_id task w1)
    /\ inflight (all_tablets w2 (task_tablet task)) (compaction_type task) = None
    /\ In (mkCandidate (Some (task_tablet task)) (compaction_type task)
             (score invalid_candidate))
          (candidates w2)
    /\ (forall i k, last_failure_time (all_tablets w2 i) k
                    = last_failure_time (all_tablets w i) k).
Proof.
  intro H. exists (snd (submit_task false next_task_id task w1)).
  split; [unfold schedule_round; rewrite H; reflexivity|].
  split; [reflexivity|].
  destruct (submit_task_refused next_task_id task w1) as (_ & S2 & S3 & S4).
  split; [|split].
  - rewrite S3. apply set_inflight_same.
  - rewrite S2. unfold update_candidates. apply in_or_app. right. left. reflexivity.
  - intros i k.
    assert (Hsel : forall i k, last_failure_time (all_tablets w1 i) k
                               = last_failure_time (all_tablets w i) k).
    { destruct (round_end_returns env w) as [sf Hsf].
      rewrite (try_get_next_from_end env w sf Hsf) in H.
      inversion H; subst w1. simpl.
      unfold round_end in Hsf.
      destruct (select_loop_keeps env _ _ _ Hsf) as (_ & _ & Hf).
      exact Hf. }
    destruct (Z.eq_dec i (task_tablet task)) as [E|E].
    + subst i. rewrite S3. unfold reset_compaction.
      destruct (set_inflight_frame (all_tablets w1 (task_tablet task))
                  (compaction_type task) None) as (_ & _ & _ & _ & _ & Hf & _).
      rewrite Hf. apply Hsel.
    + rewrite (S4 i E). apply Hsel.
Qed.

(** The round selects the task of tablet 1 and the pool refuses it. *)
Lemma submission_failure_undone_witness :
  exists w2 : World,
    schedule_round ex_env false 42 (ex_world [ex_candidate 4 7; ex_candidate 1 5]) = Some w2
    /\ inflight (all_tablets w2 1) CUMULATIVE_COMPACTION = None
    /\ In (mkCandidate (Some 1) CUMULATIVE_COMPACTION 0) (candidates w2).
Proof.
  pose (w1 := match _try_get_next_compaction_task ex_env
                      (ex_world [ex_candidate 4 7; ex_candidate 1 5]) with
              | Some (_, w') => w'
              | None => ex_world []
              end).
  destruct (submission_failure_undone ex_env 42
              (ex_world [ex_candidate 4 7; ex_candidate 1 5]) w1
              (mkTask 0 1 CUMULATIVE_COMPACTION 10) eq_refl)
    as (w2 & H1 & _ & H3 & H4 & _).
  exists w2. split; [exact H1 | split; [exact H3 | exact H4]].
Defined.

(** *** The assertion in the loop *)

Lemma dcheck_found_fails (env : Env) (ts : Tablets) (c : CompactionCandidate) :
  _check_precondition ts c = false ->
  dcheck_found (_can_do_compaction env ts c) = false.
Proof. intro H. rewrite (verdict_precondition_fails env ts c H). reflexivity. Qed.

(** C10 does not hold of the code: the candidate of tablet 3, which is not
    running, is valid and is taken from the registry; [_can_do_compaction]
    reports that it needs no rescheduling and returns false, so the loop
    reaches [DCHECK(found)] with [found] false. *)
Lemma dcheck_found_is_violated :
  _can_schedule_next ex_env [ex_candidate 3 9] = true
  /\ pick_candidate [ex_candidate 3 9] = (ex_candidate 3 9, [])
  /\ is_valid (ex_candidate 3 9) = true
  /\ need_reschedule (_can_do_compaction ex_env ex_tablets (ex_candidate 3 9)) = false
  /\ can_do (_can_do_compaction ex_env ex_tablets (ex_candidate 3 9)) = false
  /\ dcheck_found (_can_do_compaction ex_env ex_tablets (ex_candidate 3 9)) = false.
Proof. repeat split. Qed.

End SchedulerFacts.

(* ================================================================== *)
(** ** Properties of readers, guards and lists of rowsets              *)
(* ================================================================== *)

Module RowsetUseFacts.
Import RowsetLifecycle RowsetUse RowsetFacts.

(** *** The reader count *)

Lemma step_refs (o : Op) (r : Rowset) :
  refs_by_reader (fst (step o r)) =
  match o with
  | OpAcquire => wrap64 (refs_by_reader r + 1)
  | OpRelease => wrap64 (refs_by_reader r - 1)
  | _ => refs_by_reader r
  end.
Proof.
  destruct r as [n [s] b]. destruct o; simpl.
  - destruct s; reflexivity.
  - destruct s; try reflexivity.
    unfold close, state, on_close; simpl. destruct (n =? 0); reflexivity.
  - reflexivity.
  - unfold release, state; simpl.
    destruct (wrap64 (n - 1) =? 0) eqn:E; [|reflexivity].
    apply Z.eqb_eq in E. destruct s; simpl; rewrite ?E; reflexivity.
Qed.

Lemma run_refs (ops : list Op) : forall (r : Rowset) (m : Z),
  refs_by_reader r = wrap64 m ->
  refs_by_reader (fst (run ops r)) = wrap64 (readers_after m ops).
Proof.
  induction ops as [|o ops IH]; intros r m Hr.
  - exact Hr.
  - rewrite run_cons. simpl fst.
    pose proof (step_refs o r) as Hs.
    destruct o; simpl readers_after; apply IH; rewrite Hs, Hr.
    + reflexivity.
    + reflexivity.
    + apply wrap64_succ.
    + apply wrap64_pred.
Qed.

(** X1: [load()] and [close()] never touch the reader count, and every
    [acquire()] and [release()] moves it by one: after any sequence of
    calls on a rowset whose count is within [uint64_t], the count is the
    count before plus the acquires minus the releases, modulo 2^64. *)
Theorem reader_count_is_balance (ops : list Op) (r : Rowset) :
  0 <= refs_by_reader r < UINT64_MOD ->
  refs_by_reader (fst (run ops r)) = wrap64 (readers_after (refs_by_reader r) ops).
Proof.
  intro H. apply run_refs. symmetry. apply wrap64_small. exact H.
Qed.

(** Three acquires, a close, a load and a release leave two readers. *)
Lemma reader_count_is_balance_witness :
  refs_by_reader
    (fst (run [OpAcquire; OpAcquire; OpClose; OpAcquire; OpLoad; OpRelease] new_rowset))
  = wrap64 2.
Proof.
  apply (reader_count_is_balance
           [OpAcquire; OpAcquire; OpClose; OpAcquire; OpLoad; OpRelease] new_rowset).
  vm_compute. split; [discriminate | reflexivity].
Defined.

(** *** While a reader holds the rowset *)

Lemma held_bounds (n : Z) (ops : list Op) :
  held n ops = true -> 0 < n < UINT64_MOD.
Proof.
  destruct ops; simpl; intro H;
    apply andb_prop in H; destruct H as [H _];
    apply andb_prop in H; destruct H as [H1 H2];
    apply Z.ltb_lt in H1; apply Z.ltb_lt in H2; split; assumption.
Qed.

Lemma held_tail (n : Z) (o : Op) (ops : list Op) :
  held n (o :: ops) = true ->
  held (match o with
        | OpAcquire => n + 1
        | OpRelease => n - 1
        | _ => n
        end) ops = true.
Proof.
  simpl. intro H. apply andb_prop in H. destruct H as [_ H].
  destruct o; exact H.
Qed.

Lemma run_held (ops : list Op) : forall (n : Z) (r : Rowset),
  consistent r -> refs_by_reader r = n -> held n ops = true ->
  closes (snd (run ops r)) = 0%nat
  /\ (resources_open r = true -> resources_open (fst (run ops r)) = true).
Proof.
  induction ops as [|o ops IH]; intros n r Hc Hr Hh.
  - simpl. auto.
  - pose proof (held_bounds _ _ Hh) as Hb.
    pose proof (held_tail _ _ _ Hh) as Ht.
    pose proof (held_bounds _ _ Ht) as Hb'.
    destruct (step_consistent o r Hc) as (Hc' & _ & _).
    rewrite run_cons. simpl fst. simpl snd. rewrite closes_app.
    assert (Hstep : refs_by_reader (fst (step o r))
                    = match o with
                      | OpAcquire => n + 1
                      | OpRelease => n - 1
                      | _ => n
                      end
                    /\ closes (snd (step o r)) = 0%nat
                    /\ (resources_open r = true -> resources_open (fst (step o r)) = true)).
    { rewrite step_refs, Hr.
      destruct o; cbn [step].
      - split; [reflexivity|]. destruct (state r) eqn:Hs.
        + rewrite (load_unloaded r Hs). simpl. auto.
        + rewrite (load_loaded r Hs). simpl. auto.
        + destruct (load_unloading r Hs) as [msg E]. rewrite E. simpl. auto.
      - split; [reflexivity|]. destruct (state r) eqn:Hs.
        + rewrite close_not_loaded by (rewrite Hs; discriminate). simpl. auto.
        + rewrite (close_loaded_busy r Hs) by lia64. simpl. auto.
        + rewrite close_not_loaded by (rewrite Hs; discriminate). simpl. auto.
      - split; [apply wrap64_small; lia64|]. simpl. auto.
      - split; [apply wrap64_small; lia64|].
        rewrite release_readers_left by (rewrite Hr, wrap64_small; lia64).
        simpl. auto. }
    destruct Hstep as (Hr' & Hcl & Hop).
    destruct (IH _ _ Hc' Hr' Ht) as (I1 & I2).
    rewrite Hcl, I1. split; [reflexivity | auto].
Qed.

(** X2: while at least one reader holds a rowset (and fewer than 2^64
    do), no call closes its resources: whatever [load], [close], [acquire]
    and [release] calls are made, [do_close] does not run, and resources
    that were open stay open. *)
Theorem held_rowset_stays_open (ops : list Op) (r : Rowset) :
  resources_open r = negb (RowsetState_eqb (state r) ROWSET_UNLOADED) ->
  held (refs_by_reader r) ops = true ->
  closes (snd (run ops r)) = 0%nat
  /\ (resources_open r = true -> resources_open (fst (run ops r)) = true).
Proof. intros Hc Hh. apply (run_held ops (refs_by_reader r) r Hc eq_refl Hh). Qed.

(** One reader holds a loaded rowset; a [close], a second reader coming
    and going and another [close] do not close the resources. *)
Lemma held_rowset_stays_open_witness :
  closes (snd (run [OpClose; OpAcquire; OpRelease; OpClose]
                 (mkRowset 1 (mkMachine ROWSET_LOADED) true))) = 0%nat
  /\ resources_open (fst (run [OpClose; OpAcquire; OpRelease; OpClose]
                            (mkRowset 1 (mkMachine ROWSET_LOADED) true))) = true.
Proof.
  destruct (held_rowset_stays_open [OpClose; OpAcquire; OpRelease; OpClose]
              (mkRowset 1 (mkMachine ROWSET_LOADED) true) eq_refl eq_refl) as [H1 H2].
  split; [exact H1 | exact (H2 eq_refl)].
Defined.

(** *** [close] twice *)

Lemma close_leaves_loaded (r : Rowset) : state (fst (close r)) <> ROWSET_LOADED.
Proof.
  destruct (state r) eqn:Hs.
  - rewrite close_not_loaded by (rewrite Hs; discriminate). simpl. rewrite Hs. discriminate.
  - destruct (Z.eq_dec (refs_by_reader r) 0) as [E|E].
    + rewrite (close_loaded_idle r Hs E). discriminate.
    + rewrite (close_loaded_busy r Hs E). discriminate.
  - rewrite close_not_loaded by (rewrite Hs; discriminate). simpl. rewrite Hs. discriminate.
Qed.

(** X3: [close()] never leaves a rowset [ROWSET_LOADED], and closing
    again does nothing: the second call returns the rowset as it is
    without taking the mutex or calling [do_close]. *)
Theorem close_twice (r : Rowset) :
  state (fst (close r)) <> ROWSET_LOADED
  /\ close (fst (close r)) = (fst (close r), []).
Proof.
  split; [apply close_leaves_loaded|].
  apply close_not_loaded. apply close_leaves_loaded.
Qed.

(** *** The release guard *)

Lemma held_final (ops : list Op) : forall n : Z,
  held n ops = true -> 0 < readers_after n ops < UINT64_MOD.
Proof.
  induction ops as [|o ops IH]; intros n H.
  - apply (held_bounds n [] H).
  - pose proof (held_tail _ _ _ H) as Ht. destruct o; simpl; apply IH; exact Ht.
Qed.

Lemma with_guard_eq (body : Rowset -> Rowset * list Event) (r : Rowset) :
  with_guard body r =
  (fst (release (fst (body (fst (acquire r))))),
   snd (body (fst (acquire r))) ++ snd (release (fst (body (fst (acquire r)))))).
Proof.
  unfold with_guard. simpl.
  destruct (body (set_refs r (wrap64 (refs_by_reader r + 1)))) as [r2 e2]. simpl.
  destruct (release r2) as [r3 e3]. reflexivity.
Qed.

(** X4: a [RowsetReleaseGuard] keeps the resources open while it lives
    and closes them when it dies, if it was the last reader of a closed
    rowset.  Take a rowset with a valid count and a body during which at
    least the guard's reference is left: [do_close] does not run in the
    body.  If the body leaves the guard as the only reader of a rowset
    that is [ROWSET_UNLOADING], the destructor runs [do_close] once and
    the rowset is [ROWSET_UNLOADED]; if other readers are left, the
    destructor closes nothing. *)
Theorem guard_defers_close (ops : list Op) (r : Rowset) :
  resources_open r = negb (RowsetState_eqb (state r) ROWSET_UNLOADED) ->
  0 <= refs_by_reader r ->
  held (refs_by_reader r + 1) ops = true ->
  closes (snd (run ops (fst (acquire r)))) = 0%nat
  /\ (readers_after (refs_by_reader r + 1) ops = 1 ->
      state (fst (run ops (fst (acquire r)))) = ROWSET_UNLOADING ->
      state (fst (with_guard (run ops) r)) = ROWSET_UNLOADED
      /\ resources_open (fst (with_guard (run ops) r)) = false
      /\ closes (snd (with_guard (run ops) r)) = 1%nat)
  /\ (1 < readers_after (refs_by_reader r + 1) ops ->
      state (fst (with_guard (run ops) r)) = state (fst (run ops (fst (acquire r))))
      /\ resources_open (fst (with_guard (run ops) r))
         = resources_open (fst (run ops (fst (acquire r))))
      /\ closes (snd (with_guard (run ops) r)) = 0%nat).
Proof.
  intros Hc Hn Hh.
  pose proof (held_bounds _ _ Hh) as Hb.
  pose proof (held_final _ _ Hh) as Hf.
  assert (Hr1 : refs_by_reader (fst (acquire r)) = refs_by_reader r + 1)
    by (simpl; apply wrap64_small; lia64).
  assert (Hc1 : consistent (fst (acquire r))) by exact Hc.
  assert (Hh1 : held (refs_by_reader (fst (acquire r))) ops = true)
    by (rewrite Hr1; exact Hh).
  destruct (run_held ops _ _ Hc1 eq_refl Hh1) as (Hcl & _).
  assert (Hr2 : refs_by_reader (fst (run ops (fst (acquire r))))
                = readers_after (refs_by_reader r + 1) ops).
  { rewrite (run_refs ops _ (refs_by_reader r + 1)).
    - apply wrap64_small. lia64.
    - rewrite Hr1. symmetry. apply wrap64_small. lia64. }
  split; [exact Hcl|]. rewrite with_guard_eq. cbn [fst snd].
  rewrite closes_app, Hcl. split.
  - intros H1 Hs.
    rewrite release_last_unloading; [repeat split | | exact Hs].
    rewrite Hr2, H1. reflexivity.
  - intro H1.
    rewrite release_readers_left; [repeat split|].
    rewrite Hr2, wrap64_small; lia64.
Qed.

(** A guard on a loaded rowset without reader, with a [close] in its
    scope: the resources are closed once, by the destructor. *)
Lemma guard_defers_close_witness :
  closes (snd (run [OpClose] (fst (acquire (mkRowset 0 (mkMachine ROWSET_LOADED) true)))))
  = 0%nat
  /\ state (fst (with_guard (run [OpClose]) (mkRowset 0 (mkMachine ROWSET_LOADED) true)))
     = ROWSET_UNLOADED
  /\ closes (snd (with_guard (run [OpClose]) (mkRowset 0 (mkMachine ROWSET_LOADED) true)))
     = 1%nat.
Proof.
  destruct (guard_defers_close [OpClose] (mkRowset 0 (mkMachine ROWSET_LOADED) true)
              eq_refl (Z.le_refl 0) eq_refl) as (H1 & H2 & _).
  destruct (H2 eq_refl eq_refl) as (H3 & _ & H4).
  split; [exact H1 | split; [exact H3 | exact H4]].
Defined.

(** *** Lists of rowsets *)

Lemma update_rowset_eq (st : Rowsets) (p : nat) (r : Rowset) :
  update_rowset st p r p = r.
Proof. unfold update_rowset. rewrite Nat.eqb_refl. reflexivity. Qed.

Lemma update_rowset_neq (st : Rowsets) (p i : nat) (r : Rowset) :
  p <> i -> update_rowset st p r i = st i.
Proof.
  intro H. unfold update_rowset. destruct (Nat.eqb i p) eqn:E; [|reflexivity].
  apply Nat.eqb_eq in E. exfalso. apply H. symmetry. exact E.
Qed.

Lemma for_each_cons (f : Rowset -> Rowset * list Event) (p : nat) (rest : list nat)
  (st : Rowsets) :
  for_each f (p :: rest) st =
  (fst (for_each f rest (update_rowset st p (fst (f (st p))))),
   snd (f (st p)) ++ snd (for_each f rest (update_rowset st p (fst (f (st p)))))).
Proof.
  simpl. destruct (f (st p)) as [r e1]. simpl.
  destruct (for_each f rest (update_rowset st p r)) as [st' e2]. reflexivity.
Qed.

(** Each rowset of the store gets the method as often as its pointer
    stands in the vector. *)
Lemma for_each_at (f : Rowset -> Rowset * list Event) (rowsets : list nat) :
  forall (st : Rowsets) (i : nat),
  fst (for_each f rowsets st) i
  = Nat.iter (occurrences rowsets i) (fun r => fst (f r)) (st i).
Proof.
  unfold occurrences.
  induction rowsets as [|p rest IH]; intros st i.
  - reflexivity.
  - rewrite for_each_cons. simpl fst. rewrite IH. simpl count_occ.
    destruct (Nat.eq_dec p i) as [E|E].
    + subst p. rewrite update_rowset_eq. rewrite Nat.iter_succ_r. reflexivity.
    + rewrite update_rowset_neq by exact E. reflexivity.
Qed.

Lemma set_refs_twice (r : Rowset) (a b : Z) : set_refs (set_refs r a) b = set_refs r b.
Proof. reflexivity. Qed.

Lemma set_refs_same (r : Rowset) : set_refs r (refs_by_reader r) = r.
Proof. destruct r. reflexivity. Qed.

Lemma iter_acquire (k : nat) (r : Rowset) :
  0 <= refs_by_reader r < UINT64_MOD ->
  Nat.iter k (fun r => fst (acquire r)) r
  = set_refs r (wrap64 (refs_by_reader r + Z.of_nat k)).
Proof.
  intro H. induction k as [|k IH].
  - simpl. rewrite Z.add_0_r, wrap64_small by exact H. symmetry. apply set_refs_same.
  - rewrite Nat.iter_succ, IH, Nat2Z.inj_succ.
    unfold acquire, set_refs.
    cbn [fst refs_by_reader rowset_state_machine resources_open].
    rewrite wrap64_succ. f_equal. f_equal. lia.
Qed.

Lemma acquire_readers_silent (rowsets : list nat) : forall st : Rowsets,
  snd (acquire_readers rowsets st) = [].
Proof.
  unfold acquire_readers.
  induction rowsets as [|p rest IH]; intro st.
  - reflexivity.
  - rewrite for_each_cons. simpl. apply IH.
Qed.

(** X5: [acquire_readers] adds to the count of every rowset the number
    of times its pointer stands in the vector (modulo 2^64), changes
    neither state nor resources, and takes no lock. *)
Theorem acquire_readers_counts (rowsets : list nat) (st : Rowsets) (i : nat) :
  0 <= refs_by_reader (st i) < UINT64_MOD ->
  fst (acquire_readers rowsets st) i
  = mkRowset (wrap64 (refs_by_reader (st i) + Z.of_nat (occurrences rowsets i)))
      (rowset_state_machine (st i)) (resources_open (st i))
  /\ snd (acquire_readers rowsets st) = [].
Proof.
  intro H. split; [|apply acquire_readers_silent].
  unfold acquire_readers. rewrite for_each_at. rewrite iter_acquire by exact H.
  reflexivity.
Qed.

(** Rowset 0 stands twice in the vector and has three readers: it has
    five afterwards. *)
Lemma acquire_readers_counts_witness :
  fst (acquire_readers [0%nat; 1%nat; 0%nat]
         (fun _ => mkRowset 3 (mkMachine ROWSET_LOADED) true)) 0%nat
  = mkRowset (wrap64 (3 + 2)) (mkMachine ROWSET_LOADED) true.
Proof.
  refine (proj1 (acquire_readers_counts [0%nat; 1%nat; 0%nat]
                   (fun _ => mkRowset 3 (mkMachine ROWSET_LOADED) true) 0%nat _)).
  vm_compute. split; [discriminate | reflexivity].
Defined.

Lemma iter_release (k : nat) : forall (r : Rowset) (n : Z),
  refs_by_reader r = n + Z.of_nat k ->
  0 <= n -> n + Z.of_nat k < UINT64_MOD ->
  (state r = ROWSET_UNLOADING -> 0 < n) ->
  Nat.iter k (fun r => fst (release r)) r = set_refs r n.
Proof.
  induction k as [|k IH]; intros r n Hr Hn Hm Hu.
  - simpl in Hr. rewrite Z.add_0_r in Hr. rewrite <- Hr. symmetry. apply set_refs_same.
  - rewrite Nat2Z.inj_succ in Hr, Hm.
    rewrite Nat.iter_succ, (IH r (n + 1)); try lia.
    assert (Hw : wrap64 (refs_by_reader (set_refs r (n + 1)) - 1) = n).
    { simpl. replace (n + 1 - 1) with n by lia. apply wrap64_small. lia64. }
    destruct (Z.eq_dec n 0) as [E|E].
    + rewrite release_last_other.
      * simpl. rewrite E. reflexivity.
      * rewrite Hw. exact E.
      * intro Hs. apply Hu in Hs. lia.
    + rewrite release_readers_left by (rewrite Hw; exact E).
      rewrite Hw. reflexivity.
Qed.

(** X6: [release_readers] undoes [acquire_readers] on the same vector:
    every rowset whose count stays below 2^64, and which is not unloading
    without a reader, is afterwards exactly as it was before. *)
Theorem release_readers_undoes_acquire (rowsets : list nat) (st : Rowsets) (i : nat) :
  0 <= refs_by_reader (st i) ->
  refs_by_reader (st i) + Z.of_nat (occurrences rowsets i) < UINT64_MOD ->
  (state (st i) = ROWSET_UNLOADING -> 0 < refs_by_reader (st i)) ->
  fst (release_readers rowsets (fst (acquire_readers rowsets st))) i = st i.
Proof.
  intros Hn Hm Hu.
  unfold release_readers, acquire_readers. rewrite !for_each_at.
  rewrite iter_acquire by lia.
  rewrite wrap64_small by lia.
  rewrite (iter_release _ _ (refs_by_reader (st i))).
  - rewrite set_refs_twice. apply set_refs_same.
  - reflexivity.
  - exact Hn.
  - exact Hm.
  - exact Hu.
Qed.

(** A loaded rowset without reader that stands twice in the vector. *)
Lemma release_readers_undoes_acquire_witness :
  fst (release_readers [0%nat; 1%nat; 0%nat]
         (fst (acquire_readers [0%nat; 1%nat; 0%nat]
                 (fun _ => mkRowset 0 (mkMachine ROWSET_LOADED) true)))) 0%nat
  = mkRowset 0 (mkMachine ROWSET_LOADED) true.
Proof.
  apply (release_readers_undoes_acquire [0%nat; 1%nat; 0%nat]
           (fun _ => mkRowset 0 (mkMachine ROWSET_LOADED) true) 0%nat).
  - apply Z.le_refl.
  - reflexivity.
  - intro H. discriminate H.
Defined.

Lemma iter_close (k : nat) (r : Rowset) :
  Nat.iter (S k) (fun r => fst (close r)) r = fst (close r).
Proof.
  induction k as [|k IH].
  - reflexivity.
  - rewrite Nat.iter_succ, IH.
    rewrite close_not_loaded by apply close_leaves_loaded. reflexivity.
Qed.

Lemma close_rowsets_idle (rowsets : list nat) : forall st : Rowsets,
  (forall i, In i rowsets -> state (st i) <> ROWSET_LOADED) ->
  snd (close_rowsets rowsets st) = []
  /\ forall i, fst (close_rowsets rowsets st) i = st i.
Proof.
  unfold close_rowsets.
  induction rowsets as [|p rest IH]; intros st H.
  - split; reflexivity.
  - rewrite for_each_cons.
    assert (Hp : close (st p) = (st p, []))
      by (apply close_not_loaded; apply H; left; reflexivity).
    rewrite Hp. cbn [fst snd app].
    assert (Hsame : forall i, update_rowset st p (st p) i = st i).
    { intro i. unfold update_rowset. destruct (Nat.eqb i p) eqn:E; [|reflexivity].
      apply Nat.eqb_eq in E. subst. reflexivity. }
    destruct (IH (update_rowset st p (st p))) as [I1 I2].
    { intros i Hi. rewrite Hsame. apply H. right. exact Hi. }
    split; [exact I1|]. intro i. rewrite I2. apply Hsame.
Qed.

(** X7: after [close_rowsets] every rowset of the vector has been closed
    once, however often it stands in the vector, and none of them is
    [ROWSET_LOADED]; a rowset that is not in the vector is untouched; and
    calling [close_rowsets] again on the same vector changes nothing and
    takes no lock. *)
Theorem close_rowsets_once (rowsets : list nat) (st : Rowsets) :
  (forall i, In i rowsets ->
     fst (close_rowsets rowsets st) i = fst (close (st i))
     /\ state (fst (close_rowsets rowsets st) i) <> ROWSET_LOADED)
  /\ (forall i, ~ In i rowsets -> fst (close_rowsets rowsets st) i = st i)
  /\ snd (close_rowsets rowsets (fst (close_rowsets rowsets st))) = []
  /\ (forall i, fst (close_rowsets rowsets (fst (close_rowsets rowsets st))) i
                = fst (close_rowsets rowsets st) i).
Proof.
  assert (Hin : forall i, In i rowsets ->
            fst (close_rowsets rowsets st) i = fst (close (st i))).
  { intros i Hi. unfold close_rowsets. rewrite for_each_at.
    unfold occurrences.
    apply (count_occ_In Nat.eq_dec) in Hi.
    destruct (count_occ Nat.eq_dec rowsets i) as [|k]; [inversion Hi|].
    apply iter_close. }
  assert (Hst : forall i, In i rowsets ->
            state (fst (close_rowsets rowsets st) i) <> ROWSET_LOADED).
  { intros i Hi. rewrite (Hin i Hi). apply close_leaves_loaded. }
  split; [intros i Hi; split; [apply Hin | apply Hst]; exact Hi|].
  split.
  - intros i Hi. unfold close_rowsets. rewrite for_each_at.
    unfold occurrences.
    apply (count_occ_not_In Nat.eq_dec) in Hi. rewrite Hi. reflexivity.
  - apply close_rowsets_idle. exact Hst.
Qed.

(** A loaded rowset without reader that stands twice in the vector is
    closed; its neighbour is not touched. *)
Lemma close_rowsets_once_witness :
  fst (close_rowsets [0%nat; 0%nat]
         (fun _ => mkRowset 0 (mkMachine ROWSET_LOADED) true)) 0%nat
  = mkRowset 0 (mkMachine ROWSET_UNLOADED) false
  /\ fst (close_rowsets [0%nat; 0%nat]
            (fun _ => mkRowset 0 (mkMachine ROWSET_LOADED) true)) 1%nat
     = mkRowset 0 (mkMachine ROWSET_LOADED) true.
Proof.
  destruct (close_rowsets_once [0%nat; 0%nat]
              (fun _ => mkRowset 0 (mkMachine ROWSET_LOADED) true)) as (H1 & H2 & _).
  split.
  - apply (proj1 (H1 0%nat (or_introl eq_refl))).
  - apply (H2 1%nat). intros [H|[H|H]]; try discriminate H; exact H.
Defined.

(** *** Metadata *)

Lemma wrap64_add_l (a x : Z) : wrap64 (wrap64 a + x) = wrap64 (a + x).
Proof. unfold wrap64. apply Zplus_mod_idemp_l. Qed.

Lemma fold_segments (rowsets : list RowsetMeta) : forall a : Z,
  List.fold_left (fun acc m => wrap64 (acc + num_segments m)) rowsets (wrap64 a)
  = wrap64 (a + total_segments rowsets).
Proof.
  induction rowsets as [|m rest IH]; intro a.
  - unfold total_segments. cbn [List.fold_left List.fold_right].
    rewrite Z.add_0_r. reflexivity.
  - unfold total_segments. cbn [List.fold_left List.fold_right].
    fold (total_segments rest).
    rewrite wrap64_add_l, IH. f_equal. lia.
Qed.

Lemma total_segments_app (a b : list RowsetMeta) :
  total_segments (a ++ b) = total_segments a + total_segments b.
Proof.
  induction a as [|m a IH].
  - reflexivity.
  - unfold total_segments in *. cbn [app List.fold_right]. rewrite IH. lia.
Qed.

(** X8: [get_segment_num] is the sum of the segment counts modulo 2^64:
    zero for no rowset, additive over the concatenation of two vectors
    (modulo 2^64), and the exact sum whenever that sum fits a [size_t]. *)
Theorem get_segment_num_sum (a b : list RowsetMeta) :
  get_segment_num [] = 0
  /\ get_segment_num a = wrap64 (total_segments a)
  /\ get_segment_num (a ++ b) = wrap64 (get_segment_num a + get_segment_num b)
  /\ (0 <= total_segments a < UINT64_MOD -> get_segment_num a = total_segments a).
Proof.
  assert (H : forall l, get_segment_num l = wrap64 (total_segments l)).
  { intro l. unfold get_segment_num.
    change 0 with (wrap64 0) at 1. rewrite fold_segments. reflexivity. }
  split; [reflexivity|]. split; [apply H|]. split.
  - rewrite !H, total_segments_app. unfold wrap64. apply Zplus_mod.
  - intro Hb. rewrite H. apply wrap64_small. exact Hb.
Qed.

(** Rowsets of 3, 0 and 4 segments have 7 together. *)
Lemma get_segment_num_sum_witness :
  get_segment_num [mkMeta 0 1 3 0; mkMeta 2 2 0 1; mkMeta 3 5 4 0] = 7.
Proof.
  refine (proj2 (proj2 (proj2 (get_segment_num_sum
            [mkMeta 0 1 3 0; mkMeta 2 2 0 1; mkMeta 3 5 4 0] []))) _).
  vm_compute. split; [discriminate | reflexivity].
Defined.

(** X9: [Rowset::comparator] is a strict weak ordering, as [std::sort]
    asks of it: it is irreflexive and transitive, never holds both ways,
    and rowsets it does not tell apart (equal end versions) are not told
    apart from a third in different ways. *)
Theorem comparator_strict_weak (a b c : RowsetMeta) :
  comparator a a = false
  /\ (comparator a b = true -> comparator b a = false)
  /\ (comparator a b = true -> comparator b c = true -> comparator a c = true)
  /\ (comparator a b = false -> comparator b a = false ->
      comparator a c = comparator b c /\ comparator c a = comparator c b).
Proof.
  unfold comparator. repeat split.
  - apply Z.ltb_irrefl.
  - intro H. apply Z.ltb_lt in H. apply Z.ltb_ge. lia.
  - intros H1 H2. apply Z.ltb_lt in H1. apply Z.ltb_lt in H2. apply Z.ltb_lt. lia.
  - apply Z.ltb_ge in H, H0.
    assert (E : end_version a = end_version b) by lia. rewrite E. reflexivity.
  - apply Z.ltb_ge in H, H0.
    assert (E : end_version a = end_version b) by lia. rewrite E. reflexivity.
Qed.

(** Versions [0-3], [4-5] and [6-9] are in order. *)
Lemma comparator_strict_weak_witness :
  comparator (mkMeta 0 3 1 0) (mkMeta 6 9 1 0) = true.
Proof.
  apply (proj1 (proj2 (proj2 (comparator_strict_weak
           (mkMeta 0 3 1 0) (mkMeta 4 5 1 0) (mkMeta 6 9 1 0))))); reflexivity.
Defined.

End RowsetUseFacts.

(* ================================================================== *)
(** ** Properties of a selection round                                 *)
(* ================================================================== *)

Module SchedulerUseFacts.
Import Scheduler SchedulerUse SchedulerFacts.

(** *** Termination *)

Lemma select_loop_more_fuel (env : Env) (fuel : nat) :
  forall (s sf : LoopState),
  select_loop fuel env s = Some sf -> select_loop (S fuel) env s = Some sf.
Proof.
  induction fuel as [|fuel IH]; intros s sf H.
  - discriminate H.
  - rewrite select_loop_step in H. rewrite select_loop_step.
    destruct (snd (loop_body env s)); [apply IH; exact H | exact H].
Qed.

Lemma select_loop_any_fuel (env : Env) (s sf : LoopState) (fuel fuel' : nat) :
  select_loop fuel env s = Some sf ->
  (fuel <= fuel')%nat ->
  select_loop fuel' env s = Some sf.
Proof.
  intros H Hle. induction Hle as [|m Hle IH].
  - exact H.
  - apply select_loop_more_fuel. exact IH.
Qed.

(** X10: the selection loop terminates.  Every iteration that goes on
    has taken a candidate out of the registry, so after at most one
    iteration more than the registry holds candidates the loop has left,
    and [_try_get_next_compaction_task] returns; more iterations allowed
    change nothing of the result. *)
Theorem selection_terminates (env : Env) (w : World) :
  exists sf : LoopState,
    round_end env w = Some sf
    /\ (forall fuel : nat,
          (List.length (candidates w) < fuel)%nat ->
          select_loop fuel env (loop_start w) = Some sf)
    /\ exists (task : option CompactionTask) (w' : World),
         _try_get_next_compaction_task env w = Some (task, w').
Proof.
  destruct (round_end_returns env w) as [sf Hsf].
  exists sf. split; [exact Hsf|]. split.
  - intros fuel Hlt. unfold round_end in Hsf.
    apply (select_loop_any_fuel env _ _ _ fuel Hsf). lia.
  - rewrite (try_get_next_from_end env w sf Hsf). eexists. eexists. reflexivity.
Qed.

(** *** Conservation of the candidates *)

Lemma verdict_exclusive (env : Env) (ts : Tablets) (c : CompactionCandidate) :
  can_do (_can_do_compaction env ts c) = true ->
  need_reschedule (_can_do_compaction env ts c) = false.
Proof.
  unfold _can_do_compaction.
  destruct (_check_precondition ts c); simpl; [|discriminate].
  destruct (tablet c) as [id|]; [|discriminate].
  destruct (get_compaction id (ts id) (type c) true) as [[task|] t1]; [|discriminate].
  destruct (reach_capacity_limit env (data_dir t1) (input_rowsets_size task));
    [discriminate|].
  destruct (_can_do_compaction_task env t1 task) as [b t2]. simpl.
  intro H. rewrite H. reflexivity.
Qed.

Lemma loop_body_perm (env : Env) (s s' : LoopState) (b : bool) :
  loop_body env s = (s', b) ->
  exists gone : list CompactionCandidate,
    Permutation (at_hand s) (gone ++ at_hand s')
    /\ (b = true -> found s' = false)
    /\ (found s = false -> found s' = true -> gone <> []).
Proof.
  intro H. unfold at_hand.
  destruct (_can_schedule_next env (registry s)) eqn:Hc.
  - destruct (pick_candidate (registry s)) as [c rest] eqn:Hp.
    pose proof (pick_candidate_perm env _ _ _ Hc Hp) as HP.
    assert (HQ : Permutation (tmp_candidates s ++ registry s)
                   (c :: tmp_candidates s ++ rest)).
    { apply Permutation_trans with (tmp_candidates s ++ c :: rest).
      - apply Permutation_app_head. exact HP.
      - apply Permutation_sym. apply Permutation_middle. }
    destruct (is_valid c) eqn:Hv.
    + rewrite (loop_body_valid env s c rest Hc Hp Hv) in H.
      inversion H; subst; clear H. simpl.
      destruct (can_do (_can_do_compaction env (tablets s) c)) eqn:Hd.
      * rewrite (verdict_exclusive env (tablets s) c Hd).
        exists [c]. split; [exact HQ|]. split; [discriminate|].
        intros _ _. discriminate.
      * destruct (need_reschedule (_can_do_compaction env (tablets s) c)).
        -- exists []. split; [|split; [reflexivity | discriminate]].
           simpl. rewrite <- app_assoc. simpl.
           apply Permutation_app_head. exact HP.
        -- exists [c]. split; [exact HQ|]. split; [reflexivity | discriminate].
    + rewrite (loop_body_invalid env s c rest Hc Hp Hv) in H.
      inversion H; subst; clear H. simpl.
      exists [c]. split; [exact HQ|]. split; [discriminate|].
      intros H1 H2. rewrite H1 in H2. discriminate H2.
  - rewrite (loop_body_stop env s Hc) in H. inversion H; subst; clear H.
    exists []. split; [apply Permutation_refl|]. split; [discriminate|].
    intros H1 H2. rewrite H1 in H2. discriminate H2.
Qed.

Lemma select_loop_perm (env : Env) (fuel : nat) : forall s sf : LoopState,
  select_loop fuel env s = Some sf ->
  exists gone : list CompactionCandidate,
    Permutation (at_hand s) (gone ++ at_hand sf)
    /\ (found s = false -> found sf = true -> gone <> []).
Proof.
  induction fuel as [|fuel IH]; intros s sf H.
  - discriminate H.
  - rewrite select_loop_step in H.
    destruct (loop_body env s) as [s' b] eqn:Hb. simpl in H.
    destruct (loop_body_perm env s s' b Hb) as (g1 & P1 & F1 & N1).
    destruct b.
    + destruct (IH s' sf H) as (g2 & P2 & N2).
      exists (g1 ++ g2). split.
      * apply Permutation_trans with (g1 ++ at_hand s'); [exact P1|].
        rewrite <- app_assoc. apply Permutation_app_head. exact P2.
      * intros _ Hf E. apply app_eq_nil in E. destruct E as [_ E].
        apply (N2 (F1 eq_refl) Hf). exact E.
    + inversion H; subst sf. exists g1. split; [exact P1 | exact N1].
Qed.

(** X11: a round neither invents nor copies a candidate: the registry
    before the round is the registry after it together with the
    candidates the round took away, and a round that returns a task took
    at least one away. *)
Theorem selection_conserves_candidates (env : Env) (w : World) :
  exists (task : option CompactionTask) (w' : World) (gone : list CompactionCandidate),
    _try_get_next_compaction_task env w = Some (task, w')
    /\ Permutation (candidates w) (gone ++ candidates w')
    /\ (task <> None -> gone <> []).
Proof.
  destruct (round_end_returns env w) as [sf Hsf].
  rewrite (try_get_next_from_end env w sf Hsf).
  unfold round_end in Hsf.
  destruct (select_loop_perm env _ _ _ Hsf) as (gone & P & N).
  eexists. eexists. exists gone. split; [reflexivity|]. simpl. split.
  - apply Permutation_trans with (gone ++ at_hand sf); [exact P|].
    apply Permutation_app_head. unfold at_hand, insert_candidates.
    apply Permutation_app_comm.
  - intro Ht. apply N; [reflexivity|].
    destruct (found sf); [reflexivity | exfalso; apply Ht; reflexivity].
Qed.

(** *** A round with nothing to do *)

(** X12: when the number of running tasks is at its maximum, or the
    registry is empty, a round returns no task and leaves the registry and
    every tablet as they are. *)
Theorem idle_round (env : Env) (w : World) :
  check_if_exceed_max_task_num env = true \/ candidates w = [] ->
  exists w' : World,
    _try_get_next_compaction_task env w = Some (None, w')
    /\ candidates w' = candidates w
    /\ all_tablets w' = all_tablets w.
Proof.
  intro H.
  assert (Hc : _can_schedule_next env (registry (loop_start w)) = false).
  { unfold _can_schedule_next. simpl. destruct H as [H|H].
    - rewrite H. reflexivity.
    - rewrite H. apply andb_false_r. }
  assert (Hsf : round_end env w = Some (loop_start w)).
  { unfold round_end. rewrite select_loop_step, (loop_body_stop env _ Hc). reflexivity. }
  rewrite (try_get_next_from_end env w _ Hsf). simpl.
  eexists. split; [reflexivity|]. simpl. split; [apply app_nil_r | reflexivity].
Qed.

(** With the maximum reached, the ready tablet 1 is not chosen. *)
Lemma idle_round_witness :
  exists w' : World,
    _try_get_next_compaction_task
      (mkEnv true (fun _ => 0) (fun _ => 0) (fun _ _ => false) 2 2 120 1000000)
      (ex_world [ex_candidate 1 5]) = Some (None, w')
    /\ candidates w' = [ex_candidate 1 5]
    /\ all_tablets w' = ex_tablets.
Proof.
  apply (idle_round (mkEnv true (fun _ => 0) (fun _ => 0) (fun _ _ => false) 2 2 120 1000000)
           (ex_world [ex_candidate 1 5])).
  left. reflexivity.
Defined.

(** *** What a round does to the tablets *)

Lemma same_but_inflight_refl (t : Tablet) : same_but_inflight t t.
Proof. unfold same_but_inflight. repeat split. Qed.

Lemma same_but_inflight_trans (a b c : Tablet) :
  same_but_inflight a b -> same_but_inflight b c -> same_but_inflight a c.
Proof.
  unfold same_but_inflight.
  intros (A1 & A2 & A3 & A4 & A5 & A6 & A7 & A8 & A9 & A10)
         (B1 & B2 & B3 & B4 & B5 & B6 & B7 & B8 & B9 & B10).
  repeat split; congruence.
Qed.

Lemma same_but_inflight_set (t : Tablet) (k : CompactionType) (v : option CompactionTask) :
  same_but_inflight t (set_inflight t k v).
Proof. unfold same_but_inflight. destruct k; simpl; repeat split. Qed.

Lemma same_but_inflight_reads (env : Env) (t t' : Tablet) (k : CompactionType) :
  same_but_inflight t t' ->
  tablet_state t' = tablet_state t
  /\ need_compaction t' k = need_compaction t k
  /\ lock_held t' k = lock_held t k
  /\ per_disk_cap_reached env t' k = per_disk_cap_reached env t k
  /\ within_backoff env t' k = within_backoff env t k
  /\ data_dir t' = data_dir t.
Proof.
  unfold same_but_inflight, per_disk_cap_reached, within_backoff.
  intros (A1 & A2 & A3 & A4 & A5 & A6 & A7 & A8 & A9 & A10).
  destruct k; simpl; rewrite ?A8, ?A9, ?A10; repeat split; assumption.
Qed.

(** [_can_do_compaction] leaves every tablet as it is, but for the
    in-flight task, of the candidate's kind, of the candidate's tablet when
    the candidate passed the precondition. *)
Lemma verdict_tablets (env : Env) (ts : Tablets) (c : CompactionCandidate) (i : TabletId) :
  tablets_after (_can_do_compaction env ts c) i = ts i
  \/ (tablet c = Some i
      /\ _check_precondition ts c = true
      /\ exists x, tablets_after (_can_do_compaction env ts c) i
                   = set_inflight (ts i) (type c) x).
Proof.
  destruct (_check_precondition ts c) eqn:Hpre.
  - destruct (check_precondition_true ts c Hpre) as (id & Hid & Hn & _ & Hi).
    unfold _can_do_compaction. rewrite Hpre, Hid. simpl.
    rewrite (get_compaction_build id (ts id) (type c) Hi Hn).
    destruct (buildable (ts id) (type c)) as [size|].
    + set (task := mkTask 0 id (type c) size).
      set (t1 := set_inflight (ts id) (type c) (Some task)).
      destruct (reach_capacity_limit env (data_dir t1) (input_rowsets_size task)).
      * simpl. unfold update_tablet. destruct (i =? id) eqn:E; [|left; reflexivity].
        apply Z.eqb_eq in E. subst i. right.
        split; [reflexivity|]. split; [reflexivity|]. exists (Some task). reflexivity.
      * rewrite can_do_compaction_task_spec.
        destruct (lock_held t1 (compaction_type task)
                  || per_disk_cap_reached env t1 (compaction_type task)
                  || within_backoff env t1 (compaction_type task)); simpl;
          unfold update_tablet; destruct (i =? id) eqn:E; try (left; reflexivity);
          apply Z.eqb_eq in E; subst i; right;
          (split; [reflexivity|]); (split; [reflexivity|]).
        -- exists None. unfold reset_compaction, t1. apply set_inflight_twice.
        -- exists (Some task). reflexivity.
    + left. simpl. apply update_tablet_same.
  - left. rewrite (verdict_precondition_fails env ts c Hpre). reflexivity.
Qed.

Lemma verdict_frame (env : Env) (ts : Tablets) (c : CompactionCandidate) (i : TabletId) :
  same_but_inflight (ts i) (tablets_after (_can_do_compaction env ts c) i).
Proof.
  destruct (verdict_tablets env ts c i) as [E | (_ & _ & x & E)]; rewrite E.
  - apply same_but_inflight_refl.
  - apply same_but_inflight_set.
Qed.

Lemma loop_body_tablets (env : Env) (s s' : LoopState) (b : bool) :
  loop_body env s = (s', b) ->
  (forall i, tablets s' i = tablets s i)
  \/ exists c rest,
       _can_schedule_next env (registry s) = true
       /\ pick_candidate (registry s) = (c, rest)
       /\ is_valid c = true
       /\ s' = fst (loop_body env s)
       /\ tablets s' = tablets_after (_can_do_compaction env (tablets s) c)
       /\ found s' = can_do (_can_do_compaction env (tablets s) c)
       /\ compaction_task s'
          = match new_task (_can_do_compaction env (tablets s) c) with
            | Some t => Some t
            | None => compaction_task s
            end
       /\ b = negb (can_do (_can_do_compaction env (tablets s) c)).
Proof.
  intro H.
  destruct (_can_schedule_next env (registry s)) eqn:Hc.
  - destruct (pick_candidate (registry s)) as [c rest] eqn:Hp.
    destruct (is_valid c) eqn:Hv.
    + right. exists c, rest.
      rewrite H. rewrite (loop_body_valid env s c rest Hc Hp Hv) in H.
      inversion H; subst; clear H. simpl.
      repeat (split; [first [assumption | reflexivity]|]). reflexivity.
    + left. rewrite (loop_body_invalid env s c rest Hc Hp Hv) in H.
      inversion H; subst; clear H. reflexivity.
  - left. rewrite (loop_body_stop env s Hc) in H. inversion H; subst. reflexivity.
Qed.

Lemma loop_body_frame (env : Env) (s s' : LoopState) (b : bool) :
  loop_body env s = (s', b) ->
  forall i, same_but_inflight (tablets s i) (tablets s' i).
Proof.
  intros H i.
  destruct (loop_body_tablets env s s' b H)
    as [E | (c & rest & _ & _ & _ & _ & E & _)].
  - rewrite E. apply same_but_inflight_refl.
  - rewrite E. apply verdict_frame.
Qed.

Lemma select_loop_frame (env : Env) (fuel : nat) : forall s sf : LoopState,
  select_loop fuel env s = Some sf ->
  forall i, same_but_inflight (tablets s i) (tablets sf i).
Proof.
  induction fuel as [|fuel IH]; intros s sf H i.
  - discriminate H.
  - rewrite select_loop_step in H.
    destruct (loop_body env s) as [s' b] eqn:Hb. simpl in H.
    pose proof (loop_body_frame env s s' b Hb i) as F.
    destruct b.
    + apply (same_but_inflight_trans _ _ _ F). apply (IH s' sf H).
    + inversion H; subst sf. exact F.
Qed.

Lemma reaches_frame (env : Env) (s s1 : LoopState) :
  reaches env s s1 -> forall i, same_but_inflight (tablets s i) (tablets s1 i).
Proof.
  induction 1 as [s | s s1 s2 Hb _ IH]; intro i.
  - apply same_but_inflight_refl.
  - apply (same_but_inflight_trans _ _ _ (loop_body_frame env s s1 true Hb i)). apply IH.
Qed.

(** X13: a round changes nothing of any tablet but its in-flight tasks:
    state, need of compaction, locks, last-failure times and data
    directory are after the round what they were before. *)
Theorem selection_frame (env : Env) (w : World) :
  exists (task : option CompactionTask) (w' : World),
    _try_get_next_compaction_task env w = Some (task, w')
    /\ forall i : TabletId, same_but_inflight (all_tablets w i) (all_tablets w' i).
Proof.
  destruct (round_end_returns env w) as [sf Hsf].
  rewrite (try_get_next_from_end env w sf Hsf).
  eexists. eexists. split; [reflexivity|]. simpl.
  apply (select_loop_frame env _ (loop_start w) sf Hsf).
Qed.

(** *** The task a round returns *)

Lemma verdict_chosen (env : Env) (ts : Tablets) (c : CompactionCandidate) :
  can_do (_can_do_compaction env ts c) = true ->
  exists (id : TabletId) (task : CompactionTask),
    tablet c = Some id
    /\ _check_precondition ts c = true
    /\ task_tablet task = id /\ compaction_type task = type c
    /\ transient_failure env (ts id) task = false
    /\ new_task (_can_do_compaction env ts c) = Some task
    /\ tablets_after (_can_do_compaction env ts c) id
       = set_inflight (ts id) (type c) (Some task).
Proof.
  intro Hd.
  destruct (_check_precondition ts c) eqn:Hpre;
    [|rewrite (verdict_precondition_fails env ts c Hpre) in Hd; discriminate Hd].
  destruct (check_precondition_true ts c Hpre) as (id & Hid & Hn & _ & Hi).
  pose proof (get_compaction_build id (ts id) (type c) Hi Hn) as Hg.
  destruct (buildable (ts id) (type c)) as [size|].
  - destruct (verdict_built env ts c id _ _ Hpre Hid Hg) as (_ & _ & V1 & _ & V3).
    rewrite Hd in V1.
    assert (Ht : transient_failure env (ts id) (mkTask 0 id (type c) size) = false).
    { destruct (transient_failure env (ts id) (mkTask 0 id (type c) size));
        [discriminate V1 | reflexivity]. }
    rewrite Ht in V3.
    exists id, (mkTask 0 id (type c) size).
    split; [exact Hid|]. split; [reflexivity|]. split; [reflexivity|].
    split; [reflexivity|]. split; [exact Ht|]. split; [exact V3|].
    destruct (verdict_tablets env ts c id) as [E | (_ & _ & x & E)].
    + (* the tablet cannot be unchanged: the chosen task is in flight *)
      exfalso. revert Hd E. unfold _can_do_compaction. rewrite Hpre, Hid. simpl.
      rewrite Hg.
      destruct (reach_capacity_limit env
                  (data_dir (set_inflight (ts id) (type c)
                               (Some (mkTask 0 id (type c) size))))
                  (input_rowsets_size (mkTask 0 id (type c) size)));
        [discriminate|].
      rewrite can_do_compaction_task_spec.
      destruct (lock_held _ _ || per_disk_cap_reached env _ _ || within_backoff env _ _);
        simpl; [discriminate|].
      intros _ E. unfold update_tablet in E. rewrite Z.eqb_refl in E.
      assert (Hx : inflight (ts id) (type c) = Some (mkTask 0 id (type c) size)).
      { rewrite <- E. apply set_inflight_same. }
      rewrite Hi in Hx. discriminate Hx.
    + revert Hd E. unfold _can_do_compaction. rewrite Hpre, Hid. simpl.
      rewrite Hg.
      destruct (reach_capacity_limit env
                  (data_dir (set_inflight (ts id) (type c)
                               (Some (mkTask 0 id (type c) size))))
                  (input_rowsets_size (mkTask 0 id (type c) size)));
        [discriminate|].
      rewrite can_do_compaction_task_spec.
      destruct (lock_held _ _ || per_disk_cap_reached env _ _ || within_backoff env _ _);
        simpl; [discriminate|].
      intros _ _. unfold update_tablet. rewrite Z.eqb_refl. reflexivity.
  - destruct (verdict_not_built env ts c id Hpre Hid) as (V1 & _).
    + rewrite Hg. reflexivity.
    + rewrite Hd in V1. discriminate V1.
Qed.

(** The iteration in which a round found its task. *)
Lemma chosen_iteration (env : Env) (fuel : nat) : forall s sf : LoopState,
  select_loop fuel env s = Some sf ->
  found s = false -> found sf = true ->
  exists (s0 : LoopState) (c : CompactionCandidate) (rest : Registry),
    reaches env s s0
    /\ _can_schedule_next env (registry s0) = true
    /\ pick_candidate (registry s0) = (c, rest)
    /\ can_do (_can_do_compaction env (tablets s0) c) = true
    /\ tablets sf = tablets_after (_can_do_compaction env (tablets s0) c)
    /\ compaction_task sf
       = match new_task (_can_do_compaction env (tablets s0) c) with
         | Some t => Some t
         | None => compaction_task s0
         end.
Proof.
  induction fuel as [|fuel IH]; intros s sf H Hs Hf.
  - discriminate H.
  - rewrite select_loop_step in H.
    destruct (_can_schedule_next env (registry s)) eqn:Hc.
    + destruct (pick_candidate (registry s)) as [c rest] eqn:Hp.
      destruct (is_valid c) eqn:Hv.
      * pose proof (loop_body_valid env s c rest Hc Hp Hv) as Hb.
        rewrite Hb in H. cbn [fst snd] in H.
        destruct (can_do (_can_do_compaction env (tablets s) c)) eqn:Hd;
          cbn [negb] in H.
        -- inversion H; subst sf. exists s, c, rest.
           split; [apply reaches_here|]. cbn.
           split; [exact Hc|]. split; [exact Hp|]. split; [exact Hd|].
           split; reflexivity.
        -- destruct (IH _ sf H) as (s0 & c0 & rest0 & R & X);
             [reflexivity | exact Hf |].
           exists s0, c0, rest0. split; [|exact X].
           eapply reaches_next; [exact Hb | exact R].
      * rewrite (loop_body_invalid env s c rest Hc Hp Hv) in H. cbn in H.
        inversion H; subst sf. simpl in Hf. rewrite Hs in Hf. discriminate Hf.
    + rewrite (loop_body_stop env s Hc) in H. cbn in H.
      inversion H; subst sf. rewrite Hs in Hf. discriminate Hf.
Qed.

Lemma reaches_incl (env : Env) (s s1 : LoopState) :
  reaches env s s1 -> incl (at_hand s1) (at_hand s).
Proof.
  induction 1 as [s | s s1 s2 Hb _ IH].
  - apply incl_refl.
  - intros x Hx. apply (loop_body_keeps env s s1 true Hb). apply IH. exact Hx.
Qed.

Lemma returned_task_checks (env : Env) (w w' : World) (task : CompactionTask) :
  _try_get_next_compaction_task env w = Some (Some task, w') ->
  (exists c : CompactionCandidate,
     In c (candidates w)
     /\ tablet c = Some (task_tablet task) /\ type c = compaction_type task)
  /\ tablet_state (all_tablets w (task_tablet task)) = TABLET_RUNNING
  /\ need_compaction (all_tablets w (task_tablet task)) (compaction_type task) = true
  /\ lock_held (all_tablets w (task_tablet task)) (compaction_type task) = false
  /\ reach_capacity_limit env (data_dir (all_tablets w (task_tablet task)))
       (input_rowsets_size task) = false
  /\ per_disk_cap_reached env (all_tablets w (task_tablet task)) (compaction_type task)
     = false
  /\ within_backoff env (all_tablets w (task_tablet task)) (compaction_type task) = false
  /\ inflight (all_tablets w' (task_tablet task)) (compaction_type task) = Some task.
Proof.
  intro H.
  destruct (round_end_returns env w) as [sf Hsf].
  rewrite (try_get_next_from_end env w sf Hsf) in H.
  inversion H as [[Htask Hw]]. clear H.
  destruct (found sf) eqn:Hf; [|discriminate Htask].
  unfold round_end in Hsf.
  destruct (chosen_iteration env _ _ _ Hsf eq_refl Hf)
    as (s0 & c & rest & R & Hc & Hp & Hd & Et & Ek).
  destruct (verdict_chosen env (tablets s0) c Hd)
    as (id & task0 & Hid & Hpre & T1 & T2 & Htr & Hnew & Haft).
  rewrite Hnew in Ek. rewrite Ek in Htask. inversion Htask; subst task0. clear Htask.
  rewrite T1, T2.
  pose proof (reaches_frame env _ _ R id) as F. simpl in F.
  destruct (same_but_inflight_reads env _ _ (type c) F) as (F1 & F2 & F3 & F4 & F5 & F6).
  destruct (check_precondition_true _ c Hpre) as (id' & Hid' & Hn & Hs & _).
  rewrite Hid in Hid'. inversion Hid'; subst id'. clear Hid'.
  unfold transient_failure in Htr. rewrite T2 in Htr.
  apply orb_false_elim in Htr. destruct Htr as [Htr H4].
  apply orb_false_elim in Htr. destruct Htr as [Htr H3].
  apply orb_false_elim in Htr. destruct Htr as [H1 H2].
  subst w'.
  split; [|split; [|split; [|split; [|split; [|split; [|split]]]]]].
  - exists c. split; [|split; [exact Hid | reflexivity]].
    apply (reaches_incl env _ _ R). unfold at_hand. apply in_or_app. right.
    apply (Permutation_in c (Permutation_sym (pick_candidate_perm env _ _ _ Hc Hp))).
    left. reflexivity.
  - rewrite <- F1. exact Hs.
  - rewrite <- F2. exact Hn.
  - rewrite <- F3. exact H2.
  - rewrite <- F6. exact H1.
  - rewrite <- F4. exact H3.
  - rewrite <- F5. exact H4.
  - cbn [all_tablets]. rewrite Et, Haft, ?Ek. apply set_inflight_same.
Qed.



(** *** A task in flight *)

Lemma verdict_keeps_marker (env : Env) (ts : Tablets) (c : CompactionCandidate)
  (id : TabletId) (k : CompactionType) (t : CompactionTask) :
  inflight (ts id) k = Some t ->
  inflight (tablets_after (_can_do_compaction env ts c) id) k = Some t.
Proof.
  intro H.
  destruct (verdict_tablets env ts c id) as [E | (Hid & Hpre & x & E)]; rewrite E.
  - exact H.
  - destruct (check_precondition_true ts c Hpre) as (id' & Hid' & _ & _ & Hi).
    rewrite Hid in Hid'. inversion Hid'; subst id'. clear Hid'.
    destruct (set_inflight_frame (ts id) (type c) x) as (_ & _ & _ & _ & _ & _ & Hk).
    rewrite Hk; [exact H|].
    intro Ek. subst k. rewrite Hi in H. discriminate H.
Qed.

Lemma loop_body_keeps_marker (env : Env) (s s' : LoopState) (b : bool)
  (id : TabletId) (k : CompactionType) (t : CompactionTask) :
  loop_body env s = (s', b) ->
  inflight (tablets s id) k = Some t -> inflight (tablets s' id) k = Some t.
Proof.
  intros Hb H.
  destruct (loop_body_tablets env s s' b Hb)
    as [E | (c & rest & _ & _ & _ & _ & E & _)].
  - rewrite E. exact H.
  - rewrite E. apply verdict_keeps_marker. exact H.
Qed.

Lemma select_loop_keeps_marker (env : Env) (fuel : nat)
  (id : TabletId) (k : CompactionType) (t : CompactionTask) :
  forall s sf : LoopState,
  select_loop fuel env s = Some sf ->
  inflight (tablets s id) k = Some t -> inflight (tablets sf id) k = Some t.
Proof.
  induction fuel as [|fuel IH]; intros s sf H Hm.
  - discriminate H.
  - rewrite select_loop_step in H.
    destruct (loop_body env s) as [s' b] eqn:Hb. simpl in H.
    pose proof (loop_body_keeps_marker env s s' b id k t Hb Hm) as Hm'.
    destruct b.
    + apply (IH s' sf H Hm').
    + inversion H; subst sf. exact Hm'.
Qed.

Lemma reaches_keeps_marker (env : Env) (s s1 : LoopState)
  (id : TabletId) (k : CompactionType) (t : CompactionTask) :
  reaches env s s1 ->
  inflight (tablets s id) k = Some t -> inflight (tablets s1 id) k = Some t.
Proof.
  induction 1 as [s | s s1 s2 Hb _ IH]; intro Hm.
  - exact Hm.
  - apply IH. apply (loop_body_keeps_marker env s s1 true id k t Hb Hm).
Qed.

(** X15: a tablet that has a task of some kind in flight is not given
    another task of that kind: whatever the registry holds, the task a
    round returns is for another tablet or another kind, and the task in
    flight is still in flight after the round. *)
Theorem in_flight_is_not_chosen_again (env : Env) (w : World)
  (id : TabletId) (k : CompactionType) (t : CompactionTask) :
  inflight (all_tablets w id) k = Some t ->
  exists (task : option CompactionTask) (w' : World),
    _try_get_next_compaction_task env w = Some (task, w')
    /\ inflight (all_tablets w' id) k = Some t
    /\ forall task0 : CompactionTask,
         task = Some task0 -> task_tablet task0 = id -> compaction_type task0 <> k.
Proof.
  intro Hm.
  destruct (round_end_returns env w) as [sf Hsf].
  rewrite (try_get_next_from_end env w sf Hsf).
  eexists. eexists. split; [reflexivity|]. cbn [all_tablets].
  unfold round_end in Hsf. split.
  - apply (select_loop_keeps_marker env _ id k t _ sf Hsf). exact Hm.
  - intros task0 Htask Htab Hk.
    destruct (found sf) eqn:Hf; [|discriminate Htask].
    destruct (chosen_iteration env _ _ _ Hsf eq_refl Hf)
      as (s0 & c & rest & R & _ & _ & Hd & _ & Ek).
    destruct (verdict_chosen env (tablets s0) c Hd)
      as (id0 & task1 & Hid & Hpre & T1 & T2 & _ & Hnew & _).
    rewrite Hnew in Ek. rewrite Ek in Htask. inversion Htask; subst task1. clear Htask.
    destruct (check_precondition_true _ c Hpre) as (id' & Hid' & _ & _ & Hi).
    rewrite Hid in Hid'. inversion Hid'; subst id'. clear Hid'.
    pose proof (reaches_keeps_marker env _ _ id k t R Hm) as Hm0.
    rewrite <- T1, Htab, <- T2, Hk in Hi. rewrite Hi in Hm0. discriminate Hm0.
Qed.

(** Tablet 1 has a cumulative task in flight; a round on its candidate
    returns nothing for it. *)
Lemma in_flight_is_not_chosen_again_witness :
  exists (task : option CompactionTask) (w' : World),
    _try_get_next_compaction_task ex_env
      (mkWorld [ex_candidate 1 5]
         (update_tablet ex_tablets 1
            (set_inflight (ex_tablets 1) CUMULATIVE_COMPACTION
               (Some (mkTask 7 1 CUMULATIVE_COMPACTION 10)))))
    = Some (task, w')
    /\ inflight (all_tablets w' 1) CUMULATIVE_COMPACTION
       = Some (mkTask 7 1 CUMULATIVE_COMPACTION 10)
    /\ forall task0 : CompactionTask,
         task = Some task0 -> task_tablet task0 = 1 ->
         compaction_type task0 <> CUMULATIVE_COMPACTION.
Proof.
  apply (in_flight_is_not_chosen_again ex_env
           (mkWorld [ex_candidate 1 5]
              (update_tablet ex_tablets 1
                 (set_inflight (ex_tablets 1) CUMULATIVE_COMPACTION
                    (Some (mkTask 7 1 CUMULATIVE_COMPACTION 10)))))
           1 CUMULATIVE_COMPACTION (mkTask 7 1 CUMULATIVE_COMPACTION 10)).
  reflexivity.
Defined.

(** *** The capacity limit *)

(** X16: the return for a data directory at its capacity limit does not
    reset the in-flight task, unlike the returns of
    [_can_do_compaction_task]: the candidate is marked for rescheduling,
    its tablet keeps the task that was just built, and the precondition
    check refuses the same candidate on these tablets. *)
Theorem capacity_limit_keeps_task (env : Env) (ts : Tablets) (c : CompactionCandidate)
  (id : TabletId) (task : CompactionTask) :
  tablet c = Some id ->
  _check_precondition ts c = true ->
  fst (get_compaction id (ts id) (type c) true) = Some task ->
  reach_capacity_limit env (data_dir (ts id)) (input_rowsets_size task) = true ->
  can_do (_can_do_compaction env ts c) = false
  /\ need_reschedule (_can_do_compaction env ts c) = true
  /\ inflight (tablets_after (_can_do_compaction env ts c) id) (type c) = Some task
  /\ _check_precondition (tablets_after (_can_do_compaction env ts c)) c = false.
Proof.
  intros Hid Hpre Hg Hcap.
  destruct (check_precondition_true ts c Hpre) as (id' & Hid' & Hn & Hs & Hi).
  rewrite Hid in Hid'. inversion Hid'; subst id'. clear Hid'.
  pose proof (get_compaction_build id (ts id) (type c) Hi Hn) as Hb.
  destruct (buildable (ts id) (type c)) as [size|];
    [|rewrite Hb in Hg; discriminate Hg].
  rewrite Hb in Hg. simpl in Hg. inversion Hg; subst task. clear Hg.
  destruct (set_inflight_frame (ts id) (type c) (Some (mkTask 0 id (type c) size)))
    as (Fs & Fd & Fn & _).
  assert (V : _can_do_compaction env ts c
              = mkVerdict false true None
                  (update_tablet ts id
                     (set_inflight (ts id) (type c) (Some (mkTask 0 id (type c) size))))).
  { unfold _can_do_compaction. rewrite Hpre, Hid. simpl. rewrite Hb.
    rewrite Fd. cbn [input_rowsets_size] in *. rewrite Hcap. reflexivity. }
  rewrite V. cbn [can_do need_reschedule tablets_after].
  split; [reflexivity|]. split; [reflexivity|].
  unfold update_tablet at 1. rewrite Z.eqb_refl.
  split; [apply set_inflight_same|].
  unfold _check_precondition. rewrite Hid.
  unfold update_tablet. rewrite Z.eqb_refl.
  rewrite Fn, Hn, Fs, Hs. simpl.
  unfold get_compaction. rewrite set_inflight_same. reflexivity.
Qed.

(** With the data directory full, the ready tablet 1 keeps the task that
    was built for it. *)
Lemma capacity_limit_keeps_task_witness :
  need_reschedule (_can_do_compaction ex_env_full ex_tablets (ex_candidate 1 5)) = true
  /\ _check_precondition
       (tablets_after (_can_do_compaction ex_env_full ex_tablets (ex_candidate 1 5)))
       (ex_candidate 1 5) = false.
Proof.
  destruct (capacity_limit_keeps_task ex_env_full ex_tablets (ex_candidate 1 5) 1
              (mkTask 0 1 CUMULATIVE_COMPACTION 10)
              eq_refl eq_refl eq_refl eq_refl) as (_ & H2 & _ & H4).
  split; [exact H2 | exact H4].
Defined.

(** *** The per-disk maximum *)

Lemma per_disk_cap_reached_limit (env : Env) (t : Tablet) (k : CompactionType) :
  (threads_per_disk env k < 0 -> per_disk_cap_reached env t k = false)
  /\ (threads_per_disk env k = 0 -> per_disk_cap_reached env t k = true).
Proof.
  unfold per_disk_cap_reached, threads_per_disk, to_uint16.
  destruct k; split; intro H.
  - assert (E : (0 <=? base_compaction_num_threads_per_disk env) = false)
      by (apply Z.leb_gt; exact H).
    rewrite E. reflexivity.
  - rewrite H. simpl. apply Z.leb_le. apply Z.mod_pos_bound. reflexivity.
  - assert (E : (0 <=? cumulative_compaction_num_threads_per_disk env) = false)
      by (apply Z.leb_gt; exact H).
    rewrite E. reflexivity.
  - rewrite H. simpl. apply Z.leb_le. apply Z.mod_pos_bound. reflexivity.
Qed.

(** X17: a negative per-disk maximum switches the per-disk check off,
    whatever number of tasks runs on the disk, so that only the lock and
    the backoff window decide; a maximum of zero refuses every task of
    that kind. *)
Theorem per_disk_limit_values (env : Env) (t : Tablet) (task : CompactionTask) :
  (threads_per_disk env (compaction_type task) < 0 ->
   fst (_can_do_compaction_task env t task)
   = negb (lock_held t (compaction_type task)
           || within_backoff env t (compaction_type task)))
  /\ (threads_per_disk env (compaction_type task) = 0 ->
      fst (_can_do_compaction_task env t task) = false).
Proof.
  destruct (per_disk_cap_reached_limit env t (compaction_type task)) as [Hneg Hzero].
  rewrite can_do_compaction_task_spec. split; intro H.
  - rewrite (Hneg H), orb_false_r.
    destruct (lock_held t (compaction_type task)
              || within_backoff env t (compaction_type task)); reflexivity.
  - rewrite (Hzero H), orb_true_r. reflexivity.
Qed.

(** With a maximum of -1 and 65535 running tasks the ready tablet passes;
    with a maximum of 0 and no running task it does not. *)
Lemma per_disk_limit_values_witness :
  fst (_can_do_compaction_task
         (mkEnv false (fun _ => 65535) (fun _ => 0) (fun _ _ => false) (-1) 2 120 1000000)
         (ex_ready 0) (mkTask 0 1 CUMULATIVE_COMPACTION 10)) = true
  /\ fst (_can_do_compaction_task
            (mkEnv false (fun _ => 0) (fun _ => 0) (fun _ _ => false) 0 2 120 1000000)
            (ex_ready 0) (mkTask 0 1 CUMULATIVE_COMPACTION 10)) = false.
Proof.
  split.
  - apply (proj1 (per_disk_limit_values
                    (mkEnv false (fun _ => 65535) (fun _ => 0) (fun _ _ => false)
                       (-1) 2 120 1000000)
                    (ex_ready 0) (mkTask 0 1 CUMULATIVE_COMPACTION 10))).
    reflexivity.
  - apply (proj2 (per_disk_limit_values
                    (mkEnv false (fun _ => 0) (fun _ => 0) (fun _ _ => false)
                       0 2 120 1000000)
                    (ex_ready 0) (mkTask 0 1 CUMULATIVE_COMPACTION 10))).
    reflexivity.
Defined.

(** *** After a refused submission *)

(** X18: a refused submission leaves the task ready to be tried again:
    the candidate that [schedule()] puts back into the registry passes the
    precondition check on the tablets as the round leaves them (its tablet
    is running, needs the compaction, and has no task of that kind in
    flight any more). *)
Theorem refused_submission_can_be_retried (env : Env) (next_task_id : Z) (w w1 : World)
  (task : CompactionTask) :
  _try_get_next_compaction_task env w = Some (Some task, w1) ->
  In (mkCandidate (Some (task_tablet task)) (compaction_type task) (score invalid_candidate))
     (candidates (snd (submit_task false next_task_id task w1)))
  /\ _check_precondition (all_tablets (snd (submit_task false next_task_id task w1)))
       (mkCandidate (Some (task_tablet task)) (compaction_type task)
          (score invalid_candidate)) = true.
Proof.
  intro H.
  destruct (returned_task_checks env w w1 task H) as (_ & Hs & Hn & _).
  assert (F : same_but_inflight (all_tablets w (task_tablet task))
                (all_tablets w1 (task_tablet task))).
  { destruct (round_end_returns env w) as [sf Hsf].
    rewrite (try_get_next_from_end env w sf Hsf) in H.
    inversion H; subst w1. cbn [all_tablets].
    apply (select_loop_frame env _ (loop_start w) sf Hsf). }
  destruct (same_but_inflight_reads env _ _ (compaction_type task) F) as (F1 & F2 & _).
  destruct (submit_task_refused next_task_id task w1) as (_ & S2 & S3 & _).
  split.
  - rewrite S2. unfold update_candidates. apply in_or_app. right. left. reflexivity.
  - unfold _check_precondition. cbn [tablet type].
    rewrite S3. unfold reset_compaction.
    destruct (set_inflight_frame (all_tablets w1 (task_tablet task))
                (compaction_type task) None) as (Gs & _ & Gn & _).
    rewrite Gn, F2, Hn, Gs, F1, Hs. simpl.
    unfold get_compaction. rewrite set_inflight_same. reflexivity.
Qed.

(** The task of tablet 1 is refused by the pool; its candidate passes the
    precondition again. *)
Lemma refused_submission_can_be_retried_witness :
  exists w1 : World,
    _try_get_next_compaction_task ex_env (ex_world [ex_candidate 4 7; ex_candidate 1 5])
    = Some (Some (mkTask 0 1 CUMULATIVE_COMPACTION 10), w1)
    /\ _check_precondition
         (all_tablets (snd (submit_task false 42 (mkTask 0 1 CUMULATIVE_COMPACTION 10) w1)))
         (mkCandidate (Some 1) CUMULATIVE_COMPACTION 0) = true.
Proof.
  exists (match _try_get_next_compaction_task ex_env
                  (ex_world [ex_candidate 4 7; ex_candidate 1 5]) with
          | Some (_, w') => w'
          | None => ex_world []
          end).
  split; [reflexivity|].
  apply (proj2 (refused_submission_can_be_retried ex_env 42
                  (ex_world [ex_candidate 4 7; ex_candidate 1 5]) _
                  (mkTask 0 1 CUMULATIVE_COMPACTION 10) eq_refl)).
Defined.

(** *** After an accepted submission *)

(** X19: when the pool accepts the task a round selected, the task that
    went to the pool carries the id it was given, and the tablet has that
    task, with that id, in flight (the scheduler and the tablet hold the
    same object); the registry is as selection left it and no other tablet
    is touched. *)
Theorem accepted_submission_shares_id (env : Env) (next_task_id : Z) (w w1 : World)
  (task : CompactionTask) :
  _try_get_next_compaction_task env w = Some (Some task, w1) ->
  exists w2 : World,
    schedule_round env true next_task_id w = Some w2
    /\ fst (submit_task true next_task_id task w1) = set_task_id task next_task_id
    /\ all_tablets w2 (task_tablet task)
       = set_inflight (all_tablets w1 (task_tablet task)) (compaction_type task)
           (Some (set_task_id task next_task_id))
    /\ inflight (all_tablets w2 (task_tablet task)) (compaction_type task)
       = Some (set_task_id task next_task_id)
    /\ candidates w2 = candidates w1
    /\ (forall i, i <> task_tablet task -> all_tablets w2 i = all_tablets w1 i).
Proof.
  intro H.
  destruct (returned_task_checks env w w1 task H) as (_ & _ & _ & _ & _ & _ & _ & Hin).
  exists (snd (submit_task true next_task_id task w1)).
  split; [unfold schedule_round; rewrite H; reflexivity|].
  assert (Ht : all_tablets (snd (submit_task true next_task_id task w1)) (task_tablet task)
               = set_inflight (all_tablets w1 (task_tablet task)) (compaction_type task)
                   (Some (set_task_id task next_task_id))).
  { unfold submit_task, assign_task_id. cbn [snd all_tablets].
    rewrite Hin, CompactionTask_eqb_refl.
    unfold update_tablet. rewrite Z.eqb_refl. reflexivity. }
  split; [reflexivity|]. split; [exact Ht|]. split; [|split].
  - rewrite Ht. apply set_inflight_same.
  - reflexivity.
  - intros i Hi. unfold submit_task, assign_task_id. cbn [snd all_tablets].
    unfold update_tablet. destruct (i =? task_tablet task) eqn:E; [|reflexivity].
    apply Z.eqb_eq in E. contradiction.
Qed.

(** The task of tablet 1 is accepted by the pool with id 42. *)
Lemma accepted_submission_shares_id_witness :
  exists w2 : World,
    schedule_round ex_env true 42 (ex_world [ex_candidate 4 7; ex_candidate 1 5]) = Some w2
    /\ inflight (all_tablets w2 1) CUMULATIVE_COMPACTION
       = Some (mkTask 42 1 CUMULATIVE_COMPACTION 10).
Proof.
  pose (w1 := match _try_get_next_compaction_task ex_env
                      (ex_world [ex_candidate 4 7; ex_candidate 1 5]) with
              | Some (_, w') => w'
              | None => ex_world []
              end).
  destruct (accepted_submission_shares_id ex_env 42
              (ex_world [ex_candidate 4 7; ex_candidate 1 5]) w1
              (mkTask 0 1 CUMULATIVE_COMPACTION 10) eq_refl)
    as (w2 & H1 & _ & _ & H4 & _).
  exists w2. split; [exact H1 | exact H4].
Defined.

End SchedulerUseFacts.
